(** * cryptoscope: the dashboard's tree builders, findings projector and
      ingestion controller

    A shallow embedding of the pure and state-carrying parts of
    [src/app/page.tsx] (home page), [src/app/analyzer/page.tsx] (analyzer
    page) and the editor page bundled in [src/app/layout.tsx], with the
    height of the viewer of [src/components/CodeViewer.tsx].

    Conventions of the embedding:
    - a JavaScript string is a [string]; a [number] that holds a level is
      a [Z], one that holds a length or a count is a [nat];
    - an optional property ([children?: ...], [supported?: ...]) is an
      [option]; a property set to [undefined] reads as an absent one;
    - object identity is kept where the source relies on it: the nodes
      built by [buildTree] live in a store and are named by references;
    - an object used as a dictionary ([Record<string, ...>]) is a finite
      map of its own keys. Where the keys are the segments of the paths
      given ([buildTreeFromFilePaths]), a lookup goes on to the
      properties inherited from [Object.prototype], as in the source;
      the other dictionaries are keyed by whole paths, taken to be none
      of these properties;
    - a string is held as the bytes of its UTF-8 encoding;
      [Array.prototype.sort()] without a comparator orders strings by
      UTF-16 code units, which [PathTree.code_unit_leb] reads off the
      bytes. *)

From Stdlib Require Import ZArith QArith Qminmax Lia Lqa List Permutation Ascii String.
From stdpp Require Import gmap strings list fin_maps sorting pretty.
From Equations Require Import Equations.

Local Open Scope string_scope.
Local Open Scope list_scope.
Local Open Scope nat_scope.

(** ** Data model *)

Inductive NodeType := folder | file.

#[global] Instance NodeType_eq_dec : EqDecision NodeType.
Proof. solve_decision. Defined.

(** [type DirectoryEntry] *)
Record DirectoryEntry := mkEntry {
  e_type : NodeType;
  e_name : string;
  e_path : string;
  e_level : Z;
  e_supported : option bool
}.

(** [type TreeNode]: [children] is [None] when the property is
    [undefined]. *)
#[warnings="-register-all"]
Inductive TreeNode := Node {
  name : string;
  path : string;
  type : NodeType;
  level : Z;
  supported : option bool;
  children : option (list TreeNode)
}.

(** ** Entry-based tree builder ([buildTree], [buildTreeFromEntries])

    The three copies of the builder (home page, analyzer page, editor
    page) run the same statements; the home page's
    [if (!parent.children) parent.children = []] is the other two's
    [parent.children ||= []].

    [tree] and [stack] hold references to the same node objects, and
    [parent.children.push(node)] mutates an object already reachable from
    [tree]. The store keeps one cell per node object; a reference is the
    index of its cell. *)
Module EntryTree.

(** A node object in the store: the [TreeNode] fields, with [children]
    holding references. *)
Record Obj := mkObj {
  o_name : string;
  o_path : string;
  o_type : NodeType;
  o_level : Z;
  o_supported : option bool;
  o_children : option (list nat)
}.

Record State := mkState {
  store : list Obj;
  tree : list nat;      (* [tree], in array order *)
  stack : list nat      (* [stack], top of the stack first *)
}.

Definition init : State := mkState [] [] [].

(** [const node: TreeNode = { ..., children: entry.type === "folder" ? [] : undefined }] *)
Definition new_node (e : DirectoryEntry) : Obj :=
  mkObj (e_name e) (e_path e) (e_type e) (e_level e) (e_supported e)
        (match e_type e with folder => Some [] | file => None end).

(** [while (stack.length && stack[stack.length - 1].level >= entry.level) stack.pop();] *)
Fixpoint pop_while (h : list Obj) (lvl : Z) (stk : list nat) : list nat :=
  match stk with
  | [] => []
  | r :: rest =>
      match h !! r with
      | Some o => if (lvl <=? o_level o)%Z then pop_while h lvl rest else stk
      | None => stk
      end
  end.

(** [if (!parent.children) parent.children = []; parent.children.push(node)] *)
Definition push_child (r : nat) (o : Obj) : Obj :=
  mkObj (o_name o) (o_path o) (o_type o) (o_level o) (o_supported o)
        (Some (default [] (o_children o) ++ [r])).

(** One iteration of the loop body. *)
Definition step (s : State) (e : DirectoryEntry) : State :=
  let r := length (store s) in
  let h := store s ++ [new_node e] in
  let stk := pop_while h (e_level e) (stack s) in
  let '(h', tr') :=
    match stk with
    | [] => (h, tree s ++ [r])
    | parent :: _ => (alter (push_child r) parent h, tree s)
    end in
  mkState h' tr' (match e_type e with folder => r :: stk | file => stk end).

Definition run (entries : list DirectoryEntry) : State :=
  foldl step init entries.

(** Reading the object graph below a reference back as a [TreeNode]
    value. A child always has a larger index than its parent, so
    [length h] units of fuel reach every node (lemma [reify_closed]). *)
Fixpoint reify (fuel : nat) (h : list Obj) (r : nat) : option TreeNode :=
  match fuel with
  | O => None
  | S fuel' =>
      o ← h !! r;
      cs ← match o_children o with
           | None => Some None
           | Some rs => Some <$> mapM (reify fuel' h) rs
           end;
      Some (Node (o_name o) (o_path o) (o_type o) (o_level o) (o_supported o) cs)
  end.

(** [return tree;] *)
Definition buildTree (entries : list DirectoryEntry) : option (list TreeNode) :=
  let s := run entries in
  mapM (reify (length (store s)) (store s)) (tree s).

(** The editor page's name for the same function. *)
Definition buildTreeFromEntries := buildTree.

End EntryTree.

(** What the specification says of the entry-based builder, read on
    tree values: the stack of open ancestors is the chain of last
    children of the forest, so it is kept as the list of its levels (top
    first) and "the last child of the stack top" is found by walking
    that chain. *)
Module EntrySpec.

Definition leaf (e : DirectoryEntry) : TreeNode :=
  Node (e_name e) (e_path e) (e_type e) (e_level e) (e_supported e)
       (match e_type e with folder => Some [] | file => None end).

Fixpoint on_last {A} (g : A -> A) (l : list A) : list A :=
  match l with
  | [] => []
  | [x] => [g x]
  | x :: rest => x :: on_last g rest
  end.

(** [attach depth n f]: [n] becomes the last child of the node found
    [depth] steps down the chain of last children of [f]; at depth 0 it
    becomes the last root. *)
Fixpoint attach (depth : nat) (n : TreeNode) (f : list TreeNode) : list TreeNode :=
  match depth with
  | O => f ++ [n]
  | S d =>
      on_last (fun t => Node (name t) (path t) (type t) (level t) (supported t)
                             (Some (attach d n (default [] (children t))))) f
  end.

(** "pop from the stack while the top has [level >= entry.level]" *)
Fixpoint close (lvl : Z) (open : list Z) : list Z :=
  match open with
  | [] => []
  | l :: rest => if (lvl <=? l)%Z then close lvl rest else open
  end.

Definition step (s : list TreeNode * list Z) (e : DirectoryEntry) : list TreeNode * list Z :=
  let open := close (e_level e) (snd s) in
  (attach (length open) (leaf e) (fst s),
   match e_type e with folder => e_level e :: open | file => open end).

Definition buildTree (entries : list DirectoryEntry) : list TreeNode :=
  fst (foldl step ([], []) entries).

End EntrySpec.

(** ** Strings *)

(** [s.split(sep)] for a one-character separator; [cur] is the segment
    being read. *)
Fixpoint split_on (sep : ascii) (cur : string) (s : string) : list string :=
  match s with
  | EmptyString => [cur]
  | String c s' =>
      if Ascii.eqb c sep then cur :: split_on sep "" s'
      else split_on sep (cur +:+ String c "") s'
  end.

Definition nonempty (s : string) : bool :=
  match s with EmptyString => false | _ => true end.

(** [full.split("/").filter(Boolean)] *)
Definition path_segments (full : string) : list string :=
  filter (fun seg => Is_true (nonempty seg)) (split_on "/"%char "" full).

(** [s.endsWith(c)] for a one-character [c] *)
Fixpoint ends_with (c : ascii) (s : string) : bool :=
  match s with
  | EmptyString => false
  | String a EmptyString => Ascii.eqb a c
  | String _ s' => ends_with c s'
  end.

(** ** Path-based tree builder ([buildTreeFromFilePaths], editor page)

    The builder keeps its intermediate tree in plain objects used as
    dictionaries, so a segment is looked up along the prototype chain:
    [cursor.children[segment]] finds an own key of the dictionary or,
    failing that, a property of [Object.prototype]. The embedding is
    that of one call that finds [Object.prototype] as ECMAScript
    defines it; it follows what the call does to [Object.prototype]
    itself. *)
Module PathTree.

(** A node of the intermediate object tree:
    [{ name, path, type, children: {} }]. *)
#[warnings="-register-all"]
Inductive Trie := TNode {
  t_name : string;
  t_path : string;
  t_type : NodeType;
  t_children : gmap string Trie
}.

(** The function-valued properties of [Object.prototype]. *)
Definition prototype_functions : list string :=
  ["constructor"; "hasOwnProperty"; "isPrototypeOf"; "propertyIsEnumerable";
   "toLocaleString"; "toString"; "valueOf";
   "__defineGetter__"; "__defineSetter__"; "__lookupGetter__"; "__lookupSetter__"].

(** What a dictionary without the own key [segment] yields for
    [dict[segment]]: a function of [Object.prototype]; for
    ["__proto__"], [Object.prototype] itself; for ["children"], the
    dictionary that the call has stored in [Object.prototype.children],
    once it has ([polluted]). Each of them is truthy. *)
Definition inherited (polluted : bool) (segment : string) : bool :=
  bool_decide (segment ∈ prototype_functions)
  || String.eqb segment "__proto__"
  || (polluted && String.eqb segment "children").

(** The body of [parts.forEach((segment, idx) => ...)], from the cursor
    downwards, for a cursor in the tree that [toNodes] reads.
    [cursor.children[segment] ||= {...}] keeps what the lookup finds.
    An own node keeps the type it was created with. With an inherited
    value nothing is assigned and the cursor moves to an object that is
    no own value of any dictionary: what the remaining segments create
    below it is out of reach of [Object.keys].
    [idx === parts.length - 1] holds when no segment follows. *)
Fixpoint insert_parts (polluted : bool) (agg : string) (parts : list string)
    (kids : gmap string Trie) : gmap string Trie :=
  match parts with
  | [] => kids
  | segment :: rest =>
      let agg' := agg +:+ "/" +:+ segment in
      match kids !! segment with
      | Some child =>
          <[segment := TNode (t_name child) (t_path child) (t_type child)
                             (insert_parts polluted agg' rest (t_children child))]> kids
      | None =>
          if inherited polluted segment then kids
          else <[segment := TNode segment agg'
                              (match rest with [] => file | _ => folder end)
                              (insert_parts polluted agg' rest ∅)]> kids
      end
  end.

(** Whether the loop over [parts] runs [cursor.children ||= {}] with
    the cursor at [Object.prototype], which sets
    [Object.prototype.children]: the cursor is there in the iteration
    that follows a segment ["__proto__"], in whatever dictionary that
    segment was looked up. *)
Fixpoint pollutes (parts : list string) : bool :=
  match parts with
  | [] => false
  | segment :: rest =>
      (String.eqb segment "__proto__" && match rest with [] => false | _ => true end)
      || pollutes rest
  end.

(** [root.children], and whether [Object.prototype.children] is set. *)
Record Build := mkBuild {
  root_children : gmap string Trie;
  proto_children : bool
}.

(** One iteration of [for (const full of paths)]. The lookups in the
    tree come before the iteration that sets
    [Object.prototype.children]. *)
Definition insert_path (b : Build) (full : string) : Build :=
  let parts := path_segments full in
  mkBuild (insert_parts (proto_children b) "" parts (root_children b))
          (proto_children b || pollutes parts).

(** The place of a byte of the UTF-8 form of a string in the order of
    UTF-16 code units: the characters from U+10000 on (lead bytes F0 to
    F4), which UTF-16 writes with the surrogates D800 to DFFF, come
    before U+E000 to U+FFFF (lead bytes EE and EF). *)
Definition unit_rank (c : ascii) : N :=
  let b := N_of_ascii c in
  if (b <? 238)%N then b else if (b <? 240)%N then (b + 16)%N else (b - 2)%N.

(** The comparison of [Array.prototype.sort()] without a comparator:
    by UTF-16 code units, on strings held in UTF-8. *)
Fixpoint code_unit_leb (a b : string) : bool :=
  match a, b with
  | EmptyString, _ => true
  | String _ _, EmptyString => false
  | String x a', String y b' =>
      if Ascii.eqb x y then code_unit_leb a' b'
      else (unit_rank x <? unit_rank y)%N
  end.

Definition key_le (a b : string * TreeNode) : Prop :=
  code_unit_leb (fst a) (fst b) = true.

#[global] Instance key_le_dec a b : Decision (key_le a b).
Proof. unfold key_le. apply _. Defined.

(** The loop [for (const k of Object.keys(...).sort())] visits the
    children by ascending key. *)
Definition in_key_order (m : gmap string TreeNode) : list TreeNode :=
  map snd (merge_sort key_le (map_to_list m)).

(** The [TreeNode] that [toNodes] builds for one child. *)
Fixpoint toNode (level : Z) (child : Trie) : TreeNode :=
  Node (t_name child) (t_path child) (t_type child) level None
       (match t_type child with
        | folder => Some (in_key_order (toNode (level + 1) <$> t_children child))
        | file => None
        end).

Definition toNodes (kids : gmap string Trie) (level : Z) : list TreeNode :=
  in_key_order (toNode level <$> kids).

Definition buildTreeFromFilePaths (paths : list string) : list TreeNode :=
  toNodes (root_children (foldl insert_path (mkBuild ∅ false) paths)) 0.

End PathTree.

(** ** Analysis payload *)

Record CryptoFunction := mkCryptoFunction {
  cf_name : option string;
  cf_line_start : option Z;
  cf_content : option string;
  cf_type : option string
}.

Record CryptoSnippet := mkCryptoSnippet {
  cs_name : option string;
  cs_line_start : option Z;
  cs_code : option string;
  cs_type : option string
}.

(** [Record<string, unknown>]: only the number of such records is read. *)
Definition JsRecord := list (string * string).

Record BasicCryptoAnalysis := mkAnalysis {
  file_path : string;
  file_name : string;
  file_extension : string;
  has_crypto : bool;
  crypto_imports : option (list string);
  crypto_functions : option (list CryptoFunction);
  crypto_patterns_found : option (list string);
  crypto_algorithms_detected : option (list JsRecord);
  code_snippets : option (list CryptoSnippet)
}.

Record CryptoSummary := mkSummary {
  security_level : option string;
  algorithms_used : option (list string);
  crypto_functions_identified : option (list string);
  data_being_hashed : option (list string);
  vulnerabilities : option (list string);
  recommendations : option (list string)
}.

(** [type GeminiReview]. [review_fields] holds the properties that the
    review object itself has under the names of [BasicCryptoAnalysis]:
    what [review as unknown as BasicCryptoAnalysis] reads. *)
Record GeminiReview := mkReview {
  original_analysis : option BasicCryptoAnalysis;
  gemini_analysis : option string;
  crypto_summary : option CryptoSummary;
  review_fields : BasicCryptoAnalysis
}.

Record AnalysisResult := mkResult {
  status : option string;
  total_files : option nat;
  crypto_files_found : option nat;
  message : option string;
  basic_analysis : option (list BasicCryptoAnalysis);
  detailed_reviews : option (list GeminiReview)
}.

Record FilesCollectionEntry := mkFile {
  analysis : BasicCryptoAnalysis;
  review : option GeminiReview
}.

(** ** Findings projector *)

(** [x?.length], as a truth value and as a number ([x?.length || 0]) *)
Definition has_length {A} (x : option (list A)) : bool :=
  match x with Some (_ :: _) => true | _ => false end.

Definition length_or_0 {A} (x : option (list A)) : nat :=
  match x with Some l => length l | None => 0 end.

(** [getFilesCollection]. [entry.analysis] is an object on every entry,
    so [.filter(entry => Boolean(entry.analysis))] keeps them all. *)
Definition getFilesCollection (result : option AnalysisResult) : list FilesCollectionEntry :=
  match result with
  | None => []
  | Some result =>
      if has_length (detailed_reviews result) then
        filter (fun entry => True)
          (map (fun review =>
                  mkFile (default (review_fields review) (original_analysis review))
                         (Some review))
               (default [] (detailed_reviews result)))
      else if has_length (basic_analysis result) then
        map (fun a => mkFile a None) (default [] (basic_analysis result))
      else []
  end.

(** The body of the loop of [findingsCountByPath] *)
Definition findings_count (a : BasicCryptoAnalysis) : nat :=
  length_or_0 (crypto_imports a) + length_or_0 (crypto_functions a)
  + length_or_0 (crypto_patterns_found a) + length_or_0 (crypto_algorithms_detected a).

Definition findingsCountByPath (files : list FilesCollectionEntry) : gmap string nat :=
  foldl (fun map entry => <[file_path (analysis entry) := findings_count (analysis entry)]> map)
        ∅ files.

(** [getFolderCount]. The sum runs over [Object.entries]; addition of
    counts does not depend on the order of the entries. *)
Definition getFolderCount (findingsCountByPath : gmap string nat) (folderPath : string) : nat :=
  match folderPath with
  | EmptyString => 0
  | _ =>
      let prefix := if ends_with "/" folderPath then folderPath else folderPath +:+ "/" in
      map_fold (fun p v sum => if String.prefix prefix p then sum + v else sum)
               0 findingsCountByPath
  end.

(** [new Set(arr)] then [Array.from]: a value is kept at its first
    insertion. *)
Definition set_add (seen : list string) (x : string) : list string :=
  if decide (x ∈ seen) then seen else seen ++ [x].

Definition array_from_set (arr : list string) : list string :=
  foldl set_add [] arr.

(** [const uniq = (arr) => Array.from(new Set(arr)).filter(Boolean)] *)
Definition uniq (arr : list string) : list string :=
  filter (fun s => s <> "") (array_from_set arr).

(** [if (sum?.vulnerabilities?.length) v.push(...sum.vulnerabilities)] *)
Definition push_all (v : list string) (field : option (list string)) : list string :=
  if has_length field then v ++ default [] field else v.

Definition collect (field : CryptoSummary -> option (list string))
    (result : option AnalysisResult) : list string :=
  match result with
  | None => []
  | Some result =>
      if has_length (detailed_reviews result) then
        foldl (fun v rev => push_all v (crypto_summary rev ≫= field))
              [] (default [] (detailed_reviews result))
      else []
  end.

Record Findings := mkFindings {
  f_vulnerabilities : list string;
  f_recommendations : list string
}.

Definition findings (analysisResult : option AnalysisResult) : Findings :=
  mkFindings (uniq (collect vulnerabilities analysisResult))
             (uniq (collect recommendations analysisResult)).

(** ** Progress indicator *)

Record ProgressCfg := mkCfg {
  ceiling : Q;        (* the bound in [Math.min(..., 90)] *)
  tick_ms : nat;      (* period of [setInterval] *)
  window_ms : nat     (* delay of [setTimeout(() => setProgressPct(0), ...)] *)
}.

Definition home_cfg : ProgressCfg := mkCfg 90 350 1000.
Definition analyzer_cfg : ProgressCfg := mkCfg 92 320 700.
Definition editor_cfg : ProgressCfg := mkCfg 98 300 1200.

(** [progressPct] with the timers that write it: [interval] tells whether
    the [setInterval] timer is running, [resets] lists the times at which
    the pending [setTimeout(() => setProgressPct(0), ...)] callbacks fall
    due, oldest first. [writes] records every value passed to
    [setProgressPct]. Math.random() is a rational in [0, 1). *)
Record Progress := mkProgress {
  progressPct : Q;
  interval : bool;
  resets : list nat;
  writes : list Q
}.

Definition setProgressPct (v : Q) (p : Progress) : Progress :=
  mkProgress v (interval p) (resets p) (writes p ++ [v]).

Definition startProgress (p : Progress) : Progress :=
  let p := setProgressPct 1 p in
  mkProgress (progressPct p) true (resets p) (writes p).

Definition interval_tick (cfg : ProgressCfg) (random : Q) (p : Progress) : Progress :=
  setProgressPct (Qmin (progressPct p + (random * 6 + 1)) (ceiling cfg)) p.

Definition stopProgress (cfg : ProgressCfg) (now : nat) (p : Progress) : Progress :=
  let p := setProgressPct 100 p in
  mkProgress (progressPct p) false (resets p ++ [now + window_ms cfg]) (writes p).

(** The editor page's name for [stopProgress]. *)
Definition finishProgress := stopProgress editor_cfg.

(** The callback [() => setProgressPct(0)] of the oldest pending
    timeout. *)
Definition reset_fires (p : Progress) : Progress :=
  let p := setProgressPct 0 p in
  mkProgress (progressPct p) (interval p) (tail (resets p)) (writes p).

(** What the event loop can run next for the progress indicator: an
    ingestion action starts, the interval callback fires, the request of
    an action resolves (its [finally] block runs), time passes, the
    oldest reset timeout fires. A callback whose timer is not running or
    not yet due does not run. *)
Inductive Event :=
| Start
| IntervalFires (random : Q)
| Resolved
| Wait (ms : nat)
| ResetFires.

Record Loop := mkLoop { clock : nat; prog : Progress }.

Definition exec (cfg : ProgressCfg) (s : Loop) (ev : Event) : Loop :=
  match ev with
  | Start => mkLoop (clock s) (startProgress (prog s))
  | IntervalFires random =>
      if interval (prog s) then mkLoop (clock s) (interval_tick cfg random (prog s)) else s
  | Resolved => mkLoop (clock s) (stopProgress cfg (clock s) (prog s))
  | Wait ms => mkLoop (clock s + ms) (prog s)
  | ResetFires =>
      match resets (prog s) with
      | due :: _ => if due <=? clock s then mkLoop (clock s) (reset_fires (prog s)) else s
      | [] => s
      end
  end.

(** ** Ingestion controller *)

Inductive FeedbackType := fb_success | fb_error | fb_info.

(** What [response.json()] gives: the parsed payload, or a rejection
    when the body is not JSON. *)
Inductive Body := Json (data : AnalysisResult) | NotJson (message : string).

(** How [await fetch(...)] ends: it rejects (the request failed at the
    transport level) or yields a response. *)
Inductive Fetch :=
| Rejected (message : string)
| Responded (status : nat) (text : string) (body : Body).

(** [response.ok] *)
Definition response_ok (status : nat) : bool :=
  (200 <=? status) && (status <=? 299).

(** The state that the ingestion handlers write: [analysisResult],
    [feedback] (home page only) and the progress indicator. *)
Record Ui := mkUi {
  analysisResult : option AnalysisResult;
  feedback : option (FeedbackType * string);
  progress : Progress
}.

Definition notify (ty : FeedbackType) (text : string) (ui : Ui) : Ui :=
  mkUi (analysisResult ui) (Some (ty, text)) (progress ui).


Definition setAnalysisResult (data : AnalysisResult) (ui : Ui) : Ui :=
  mkUi (Some data) (feedback ui) (progress ui).

Definition on_progress (f : Progress -> Progress) (ui : Ui) : Ui :=
  mkUi (analysisResult ui) (feedback ui) (f (progress ui)).

(** Each handler is cut at its [await fetch(...)]: [_begin] runs up to
    it, [_end] runs from the outcome of the request to the end of the
    [finally] block, at time [now]. *)
Module Home.

(** The [try]/[catch] part shared by the home page's handlers. *)
Definition settle (failed done : string) (o : Fetch) (ui : Ui) : Ui :=
  match o with
  | Rejected message => notify fb_error message ui
  | Responded status text body =>
      if response_ok status then
        match body with
        | Json data => notify fb_success done (setAnalysisResult data ui)
        | NotJson message => notify fb_error message ui
        end
      else
        notify fb_error (failed +:+ " (" +:+ pretty status +:+ "): " +:+ text) ui
  end.


Definition requestAnalysis_end (now : nat) (o : Fetch) (ui : Ui) : Ui :=
  on_progress (stopProgress home_cfg now)
    (settle "Analysis failed" "Analysis complete." o ui).


Definition handleUploadAnalyze_end (now : nat) (o : Fetch) (ui : Ui) : Ui :=
  on_progress (stopProgress home_cfg now)
    (settle "Upload analysis failed" "ZIP uploaded and analyzed successfully." o ui).


Definition handleAnalyzeStored_end (now : nat) (o : Fetch) (ui : Ui) : Ui :=
  on_progress (stopProgress home_cfg now)
    (settle "Failed to analyze stored project" "Stored project analyzed successfully." o ui).

(** [analyzeGitRepository], from the outcome of its request on; it does
    not drive the progress indicator. *)
Definition analyzeGitRepository_end (o : Fetch) (ui : Ui) : Ui :=
  settle "Git clone analysis failed" "Repository cloned and analyzed successfully." o ui.

End Home.

Module Analyzer.

(** [const data = await res.json(); setAnalysisResult(data);] inside
    [try { ... } finally { ... }]: a rejection leaves the [try] block. *)
Definition settle (o : Fetch) (ui : Ui) : Ui :=
  match o with
  | Rejected _ => ui
  | Responded _ _ (Json data) => setAnalysisResult data ui
  | Responded _ _ (NotJson _) => ui
  end.

Definition onAnalyzeLocal_end (now : nat) (o : Fetch) (ui : Ui) : Ui :=
  on_progress (stopProgress analyzer_cfg now) (settle o ui).

Definition onAnalyzeGit_end (now : nat) (o : Fetch) (ui : Ui) : Ui :=
  on_progress (stopProgress analyzer_cfg now) (settle o ui).

Definition onAnalyzeZip_end (now : nat) (o : Fetch) (ui : Ui) : Ui :=
  on_progress (stopProgress analyzer_cfg now) (settle o ui).

End Analyzer.

Module Editor.


Definition effect_end (now : nat) (o : option Fetch) (ui : Ui) : Ui :=
  on_progress (finishProgress now)
    (match o with Some o => Analyzer.settle o ui | None => ui end).

End Editor.

(** * Properties

    ** Vocabulary of the statements *)

Import PathTree.

(** A [file] node has no [children]; a [folder] node has some, at every
    depth. *)
Fixpoint wf_node (t : TreeNode) : bool :=
  match type t, children t with
  | file, None => true
  | folder, Some cs => forallb wf_node cs
  | _, _ => false
  end.





(** No path of the list leads to a file that another path of the list
    uses as a folder. *)
Definition prefix_free (paths : list string) : Prop :=
  Forall (fun p => Forall (fun q =>
            path_segments p `prefix_of` path_segments q ->
            path_segments p = path_segments q) paths) paths.

#[global] Instance prefix_free_dec paths : Decision (prefix_free paths).
Proof. unfold prefix_free. apply _. Defined.

(** The segments of a path that the builder looks up in the tree it
    returns when [Object.prototype.children] is not set: those before
    the first one that names a property of [Object.prototype]. *)
Fixpoint reach (parts : list string) : list string :=
  match parts with
  | [] => []
  | s :: rest => if inherited false s then [] else s :: reach rest
  end.

(** The segments up to the last ["children"] among them. *)
Fixpoint through_children (parts : list string) : list string :=
  match parts with
  | [] => []
  | s :: rest =>
      match through_children rest with
      | [] => if String.eqb s "children" then [s] else []
      | r => s :: r
      end
  end.

(** No path that the builder follows to its end, creating a file, stops
    where another path of the list goes on. *)
Definition no_file_as_folder (paths : list string) : Prop :=
  Forall (fun p => Forall (fun q =>
            path_segments p <> [] ->
            reach (path_segments p) = path_segments p ->
            path_segments p `prefix_of` path_segments q ->
            path_segments p = path_segments q) paths) paths.

(** Every path that sets [Object.prototype.children] goes beforehand
    through every node named ["children"] that a path of the list
    reaches. *)
Definition children_before_proto (paths : list string) : Prop :=
  Forall (fun p => Forall (fun q =>
            pollutes (path_segments p) = true ->
            through_children (reach (path_segments q))
              `prefix_of` reach (path_segments p)) paths) paths.

Definition order_free (paths : list string) : Prop :=
  no_file_as_folder paths /\ children_before_proto paths.

#[global] Instance order_free_dec paths : Decision (order_free paths).
Proof. unfold order_free, no_file_as_folder, children_before_proto. apply _. Defined.

(** Deduplication by equality that keeps the first occurrence. *)
Equations? dedup_first (l : list string) : list string by wf (length l) lt :=
  dedup_first [] := [];
  dedup_first (x :: l) := x :: dedup_first (filter (fun y => y <> x) l).
Proof. simpl. pose proof (length_filter (fun y => y <> x) l). lia. Qed.

Definition all_reviews (r : option AnalysisResult) : list GeminiReview :=
  default [] (r ≫= detailed_reviews).

(** "collected across all [detailed_reviews[].crypto_summary],
    deduplicated preserving first-seen order, and falsy/empty strings
    discarded" *)
Definition aggregated (field : CryptoSummary -> option (list string))
    (r : option AnalysisResult) : list string :=
  filter (fun s => s <> "")
    (dedup_first
       (concat (map (fun rev => default [] (crypto_summary rev ≫= field)) (all_reviews r)))).

(** The sum of the counts of the files whose path starts with [prefix]. *)
Definition count_under (prefix : string) (m : gmap string nat) : nat :=
  sum_list_with snd
    (map_to_list (filter (fun kv => Is_true (String.prefix prefix kv.1)) m)).

(** The number of times 100 was passed to [setProgressPct]. *)
Definition hundreds (p : Progress) : nat :=
  length (filter (fun q => Is_true (Qeq_bool q 100)) (writes p)).

(** [Math.random()] lies in [0, 1). *)
Definition random_ok (ev : Event) : Prop :=
  match ev with
  | IntervalFires random => (0 <= random)%Q /\ (random < 1)%Q
  | _ => True
  end.

Definition is_resolved (ev : Event) : bool :=
  match ev with Resolved => true | _ => false end.


Definition sound_cfg (cfg : ProgressCfg) : Prop :=
  (1 <= ceiling cfg)%Q /\ (ceiling cfg < 100)%Q.

(** The request failed: it was rejected, or answered with a status
    outside 200..299. *)
Definition fetch_failed (o : Fetch) : Prop :=
  match o with
  | Rejected _ => True
  | Responded status _ _ => response_ok status = false
  end.

(** ** Representation of trees in the store of [EntryTree] *)

Import EntryTree.

Definition node_of (o : Obj) (cs : option (list TreeNode)) : TreeNode :=
  Node (o_name o) (o_path o) (o_type o) (o_level o) (o_supported o) cs.

(** [closed h hi lo r t]: the cells reachable from [r] hold the tree
    [t], and all of them have an index in [lo, hi). The children of a
    cell lie above it. *)
Inductive closed (h : list Obj) (hi : nat) : nat -> nat -> TreeNode -> Prop :=
| closed_node lo r o cs :
    lo <= r < hi -> h !! r = Some o ->
    closed_opt h hi (S r) (o_children o) cs ->
    closed h hi lo r (node_of o cs)
with closed_opt (h : list Obj) (hi : nat) :
    nat -> option (list nat) -> option (list TreeNode) -> Prop :=
| closed_none lo : closed_opt h hi lo None None
| closed_some lo rs ts : closed_list h hi lo rs ts -> closed_opt h hi lo (Some rs) (Some ts)
with closed_list (h : list Obj) (hi : nat) :
    nat -> list nat -> list TreeNode -> Prop :=
| closed_nil lo : closed_list h hi lo [] []
| closed_cons lo r t rs ts :
    closed h hi lo r t -> closed_list h hi lo rs ts ->
    closed_list h hi lo (r :: rs) (t :: ts).

Scheme closed_ind' := Minimality for closed Sort Prop
  with closed_opt_ind' := Minimality for closed_opt Sort Prop
  with closed_list_ind' := Minimality for closed_list Sort Prop.
Combined Scheme closed_mutind from closed_ind', closed_opt_ind', closed_list_ind'.

(** [spine h lo stk rs ts]: the references [rs] hold the forest [ts];
    the stack [stk] (bottom first) runs through the last element of
    [rs], then through the last child of that node, and so on. The
    subtrees to the left of a stack node lie below it in the store, its
    own subtree lies above it: a write to the cell of a stack node
    leaves every other subtree as it is. *)
Inductive spine (h : list Obj) : nat -> list nat -> list nat -> list TreeNode -> Prop :=
| spine_top lo rs ts :
    closed_list h (length h) lo rs ts -> spine h lo [] rs ts
| spine_open lo p stk rs ts o cs fc :
    closed_list h p lo rs ts -> lo <= p -> p < length h ->
    h !! p = Some o -> o_children o = Some cs ->
    spine h (S p) stk cs fc ->
    spine h lo (p :: stk) (rs ++ [p]) (ts ++ [node_of o (Some fc)]).

Definition level_at (h : list Obj) (r : nat) (l : Z) : Prop :=
  o_level <$> h !! r = Some l.

(** The node at [r] is popped by an entry of level [lvl]:
    [stack[stack.length - 1].level >= entry.level]. *)
Definition closed_by (h : list Obj) (lvl : Z) (r : nat) : Prop :=
  from_option (fun o => (lvl <= o_level o)%Z) False (h !! r).

(** The state of [EntryTree] holds the forest and the open levels of
    [EntrySpec]. *)
Definition refines (s : State) (ps : list TreeNode * list Z) : Prop :=
  spine (store s) 0 (rev (stack s)) (tree s) (fst ps) /\
  Forall2 (level_at (store s)) (stack s) (snd ps).

(** The chain of last children of a forest is made of folders, [d]
    levels down. *)
Fixpoint open_chain (d : nat) (f : list TreeNode) : Prop :=
  match d with
  | O => True
  | S d' => exists f0 t, f = f0 ++ [t] /\ type t = folder /\
                         open_chain d' (default [] (children t))
  end.

(** What holds of the forest and the open levels of [EntrySpec]. *)
Definition spec_inv (ps : list TreeNode * list Z) : Prop :=
  forallb wf_node (fst ps) = true /\ open_chain (length (snd ps)) (fst ps).

(** ** The tries of [PathTree] *)

Fixpoint trie_size (t : Trie) : nat :=
  S (map_fold (fun _ c acc => trie_size c + acc) 0 (t_children t)).



(** ** Progress of one action *)



(** ** Inputs of the examples *)

Definition ex_nested : list DirectoryEntry :=
  [ mkEntry folder "a" "/a" 0 None; mkEntry folder "b" "/a/b" 1 None;
    mkEntry file "c" "/a/b/c" 2 None; mkEntry file "d" "/d" 0 None ].

Definition ex_siblings : list DirectoryEntry :=
  [ mkEntry folder "a" "/a" 0 None; mkEntry file "x" "/a/x" 1 None;
    mkEntry file "y" "/a/y" 1 None ].

Definition ex_counts : gmap string nat :=
  list_to_map [("/src/a.py", 2); ("/src/b.py", 3); ("/lib/c.py", 1)].


Definition ex_analysis (p : string) (imports : option (list string)) : BasicCryptoAnalysis :=
  mkAnalysis p p ".py" true imports None None None None.

Definition ex_review (p : string) (vulns : list string) : GeminiReview :=
  mkReview (Some (ex_analysis p None)) None
           (Some (mkSummary None None None None (Some vulns) (Some vulns)))
           (ex_analysis "" None).

Definition ex_result : AnalysisResult :=
  mkResult (Some "success") (Some 2) (Some 2) None
           (Some [ex_analysis "/basic.py" None])
           (Some [ex_review "/a.py" ["SQL injection"; "Weak hash"];
                  ex_review "/b.py" ["Weak hash"]]).

(** The payload of an error response: [{"status": "error", "message": ...}]. *)
Definition ex_error_body : AnalysisResult :=
  mkResult (Some "error") None None (Some "Directory not found") None None.

Definition idle : Loop := mkLoop 0 (mkProgress 0 false [] []).

Definition ex_ui : Ui := mkUi (Some ex_result) None (prog idle).


(** * Further parts of the code

    The tree view, the chart, the tabs, the code pane and the helpers of
    the pages that the statements above leave out. *)

(** ** Reading a forest back *)

Definition entry_of_node (t : TreeNode) : DirectoryEntry :=
  mkEntry (type t) (name t) (path t) (level t) (supported t).

(** The nodes of a tree in pre-order, as directory entries. *)
Fixpoint entries_of (t : TreeNode) : list DirectoryEntry :=
  entry_of_node t ::
  match children t with
  | Some cs => flat_map entries_of cs
  | None => []
  end.

(** Every child lies at a deeper level than its parent. *)
Fixpoint levels_increase (t : TreeNode) : bool :=
  match children t with
  | None => true
  | Some cs => forallb (fun c => (level t <? level c)%Z && levels_increase c) cs
  end.

Definition above (bound : option Z) (t : TreeNode) : bool :=
  match bound with Some b => (b <? level t)%Z | None => true end.

Definition inc_forest (bound : option Z) (f : list TreeNode) : bool :=
  forallb (fun c => above bound c && levels_increase c) f.

(** The chain of last children of a forest carries the levels [ch], from
    the root downwards. *)
Fixpoint level_chain (ch : list Z) (f : list TreeNode) : Prop :=
  match ch with
  | [] => True
  | l :: rest => exists f0 t, f = f0 ++ [t] /\ level t = l /\
                              level_chain rest (default [] (children t))
  end.

(** ** The analyzer page's tree for a cloned repository ([onAnalyzeGit]) *)

(** The entries pushed by [parts.forEach((seg, i) => ...)]. *)
Fixpoint path_entries (agg : string) (i : Z) (parts : list string) : list DirectoryEntry :=
  match parts with
  | [] => []
  | seg :: rest =>
      let agg' := agg +:+ "/" +:+ seg in
      mkEntry (match rest with [] => file | _ => folder end) seg agg' i (Some true)
      :: path_entries agg' (i + 1) rest
  end.

(** [paths.forEach(p => ...)], filling [entries]. *)
Definition synthetic_entries (paths : list string) : list DirectoryEntry :=
  flat_map (fun p => path_entries "" 0 (path_segments p)) paths.

(** [setTreeEntries(entries)] for the payload [data], and the tree that
    [buildTree(treeEntries)] then shows. *)
Definition git_tree_entries (data : AnalysisResult) : list DirectoryEntry :=
  synthetic_entries (map (fun f => file_path (analysis f)) (getFilesCollection (Some data))).

(** A path as a tree: each segment is the only child of the one before. *)
Fixpoint chain (agg : string) (i : Z) (seg : string) (rest : list string) : TreeNode :=
  let agg' := agg +:+ "/" +:+ seg in
  match rest with
  | [] => Node seg agg' file i (Some true) None
  | s :: r => Node seg agg' folder i (Some true) (Some [chain agg' (i + 1) s r])
  end.

Definition chains (paths : list string) : list TreeNode :=
  flat_map (fun p => match path_segments p with
                     | [] => []
                     | s :: r => [chain "" 0 s r]
                     end) paths.

(** ** Reading a path-built forest *)


(** The loop over [parts] finds every segment in place, up to the one
    at which the cursor leaves the tree: it has nothing to create. *)
Fixpoint settled (polluted : bool) (parts : list string) (kids : gmap string Trie) : Prop :=
  match parts with
  | [] => True
  | s :: rest =>
      match kids !! s with
      | Some c => settled polluted rest (t_children c)
      | None => inherited polluted s = true
      end
  end.



(** [agg] after the loop [agg += "/" + segment] over [parts]. *)
Definition join_path (parts : list string) : string :=
  foldl (fun agg seg => agg +:+ "/" +:+ seg) "" parts.

Fixpoint has_char (c : ascii) (s : string) : bool :=
  match s with
  | EmptyString => false
  | String a s' => Ascii.eqb a c || has_char c s'
  end.

(** A segment: not empty, without ["/"]. *)
Definition segment_ok (s : string) : Prop :=
  nonempty s = true /\ has_char "/" s = false.




(** ** Expanded folders of the tree view *)




(** ** Chart series ([getChartData]) *)

Record ChartTotals := mkTotals {
  tot_functions : nat;
  tot_imports : nat;
  tot_patterns : nat
}.

Record ChartData := mkChart {
  fileNames : list string;
  functionCounts : list nat;
  importCounts : list nat;
  patternCounts : list nat;
  totals : ChartTotals
}.

(** [analysis.file_name || "Unknown"] *)
Definition name_or_unknown (s : string) : string :=
  match s with EmptyString => "Unknown" | _ => s end.

(** [arr.reduce((acc, val) => acc + val, 0)] *)
Definition reduce_sum (arr : list nat) : nat := foldl Nat.add 0 arr.

Definition getChartData (analysisResult : option AnalysisResult) : option ChartData :=
  match analysisResult with
  | None => None
  | Some _ =>
      match getFilesCollection analysisResult with
      | [] => None
      | files =>
          let step (acc : list string * list nat * list nat * list nat)
                   (entry : FilesCollectionEntry) :=
            let '(names, fs, ims, ps) := acc in
            (names ++ [name_or_unknown (file_name (analysis entry))],
             fs ++ [length_or_0 (crypto_functions (analysis entry))],
             ims ++ [length_or_0 (crypto_imports (analysis entry))],
             ps ++ [length_or_0 (crypto_patterns_found (analysis entry))]) in
          let '(names, fs, ims, ps) := foldl step ([], [], [], []) files in
          Some (mkChart names fs ims ps
                  (mkTotals (reduce_sum fs) (reduce_sum ims) (reduce_sum ps)))
      end
  end.

(** ** Tabs of the file cards *)






(** ** The code pane ([EditorContent]) *)

Inductive EditorView :=
| NoAnalysis (selectedPath : string)
| Snippets (extension : string) (snippets : list CryptoSnippet)
| NoSnippets.

Definition view_of (a : BasicCryptoAnalysis) : EditorView :=
  if has_length (code_snippets a)
  then Snippets (file_extension a) (default [] (code_snippets a))
  else NoSnippets.

(** [s.endsWith(suffix)] *)
Fixpoint string_ends_with (suffix s : string) : bool :=
  String.eqb suffix s ||
  match s with
  | EmptyString => false
  | String _ s' => string_ends_with suffix s'
  end.

(** Home and analyzer pages:
    [files.find(f => f.analysis.file_path === selectedPath)] *)
Definition EditorContent (selectedPath : string) (files : list FilesCollectionEntry)
    : EditorView :=
  match List.find (fun f => String.eqb (file_path (analysis f)) selectedPath) files with
  | None => NoAnalysis selectedPath
  | Some entry => view_of (analysis entry)
  end.

(** Editor page: the path may also end with [selectedPath]. *)
Definition EditorContent_editor (selectedPath : string) (files : list FilesCollectionEntry)
    : EditorView :=
  match List.find (fun f => String.eqb (file_path (analysis f)) selectedPath
                            || string_ends_with selectedPath (file_path (analysis f)))
                  files with
  | None => NoAnalysis selectedPath
  | Some entry => view_of (analysis entry)
  end.

(** ** Outcomes of the handlers *)

(** The four handlers of the home page that fetch an analysis, from the
    outcome of the request on. *)
Definition home_handlers (now : nat) : list (Fetch -> Ui -> Ui) :=
  [Home.requestAnalysis_end now; Home.handleUploadAnalyze_end now;
   Home.handleAnalyzeStored_end now; Home.analyzeGitRepository_end].

(** The handlers that drive a progress indicator, each with the timing
    of its page. *)
Definition progress_handlers (now : nat) : list (ProgressCfg * (Fetch -> Ui -> Ui)) :=
  [(home_cfg, Home.requestAnalysis_end now);
   (home_cfg, Home.handleUploadAnalyze_end now);
   (home_cfg, Home.handleAnalyzeStored_end now);
   (analyzer_cfg, Analyzer.onAnalyzeLocal_end now);
   (analyzer_cfg, Analyzer.onAnalyzeGit_end now);
   (analyzer_cfg, Analyzer.onAnalyzeZip_end now);
   (editor_cfg, fun o => Editor.effect_end now (Some o))].

(** The request was answered with a status in 200..299 and a JSON body. *)
Definition fetch_payload (o : Fetch) : option AnalysisResult :=
  match o with
  | Responded status _ (Json data) => if response_ok status then Some data else None
  | _ => None
  end.

(** ** Progress over arbitrary schedules *)

Definition in_range (cfg : ProgressCfg) (s : Loop) : Prop :=
  (0 <= progressPct (prog s))%Q /\ (progressPct (prog s) <= 100)%Q /\
  (interval (prog s) = true -> (progressPct (prog s) <= ceiling cfg)%Q).

(** The editor page starts with [useState(1)]. *)
Definition editor_idle : Loop := mkLoop 0 (mkProgress 1 false [] []).

(** ** Sizes ([formatBytes]) *)

Definition units : list string := ["B"; "KB"; "MB"; "GB"; "TB"].

(** [while (value >= 1024 && index < units.length - 1)]; the loop runs
    at most [fuel] times. *)
Fixpoint scale_loop (fuel : nat) (value : Q) (index : nat) : Q * nat :=
  match fuel with
  | 0 => (value, index)
  | S fuel' =>
      if Qle_bool 1024 value && (index <? length units - 1)
      then scale_loop fuel' (value / 1024) (index + 1)
      else (value, index)
  end.

(** [formatBytes] for a finite number of bytes, up to the formatting of
    the value by [toFixed(1)]: the value and the unit. *)
Definition formatBytes (bytes : Q) : Q * string :=
  if Qle_bool bytes 0 then (0%Q, "B")
  else let '(value, index) := scale_loop (length units) bytes 0 in
       (value, nth index units "").

(** ** Height of the code viewer ([CodeViewer]) *)

(** [value.split("\n").length] *)
Definition line_count (value : string) : nat :=
  length (split_on "010"%char "" value).

Definition viewer_height (minHeight maxHeight : Z) (value : string) : Z :=
  let lineHeight := 18%Z in
  let padding := 32%Z in
  let raw := (Z.of_nat (line_count value) * lineHeight + padding)%Z in
  Z.max minHeight (Z.min maxHeight raw).

Fixpoint count_char (c : ascii) (s : string) : nat :=
  match s with
  | EmptyString => 0
  | String a s' => (if Ascii.eqb a c then 1 else 0) + count_char c s'
  end.

(** ** Auxiliary notions of the proofs *)

(** A node that may be attached below the chain [ch]: it lies deeper
    than the last open folder, or than [bound] when no folder is open. *)
Definition may_follow (bound : option Z) (ch : list Z) (n : TreeNode) : Prop :=
  match last ch with
  | Some l => (l < level n)%Z
  | None => above bound n = true
  end.

(** What [EntrySpec.step] preserves: levels increase downwards, and the
    open folders are the chain of last children. *)
Definition levels_inv (ps : list TreeNode * list Z) : Prop :=
  inc_forest None (fst ps) = true /\ level_chain (rev (snd ps)) (fst ps).

(** [n] with [m] as a further child. *)
Definition add_child (n m : TreeNode) : TreeNode :=
  Node (name n) (path n) (type n) (level n) (supported n)
       (Some (default [] (children n) ++ [m])).

(** [join_path], read from the left. *)
Fixpoint join_from (parts : list string) : string :=
  match parts with
  | [] => ""
  | s :: rest => "/" +:+ s +:+ join_from rest
  end.


(** The chart series as maps over the files, the totals as sums. *)
Definition chart_of (files : list FilesCollectionEntry) : ChartData :=
  let fs := map (fun f => length_or_0 (crypto_functions (analysis f))) files in
  let ims := map (fun f => length_or_0 (crypto_imports (analysis f))) files in
  let ps := map (fun f => length_or_0 (crypto_patterns_found (analysis f))) files in
  mkChart (map (fun f => name_or_unknown (file_name (analysis f))) files) fs ims ps
          (mkTotals (sum_list fs) (sum_list ims) (sum_list ps)).

(** ** Badges of the tree view *)


(** A path in the form the builders write it: ["/"] before each
    segment. *)
Definition normal_path (p : string) : Prop := join_path (path_segments p) = p.

#[global] Instance normal_path_dec p : Decision (normal_path p).
Proof. unfold normal_path. apply _. Defined.



(** * Proofs

    ** Entry-based builder: the store holds the trees of the specification *)

Section Closed.
Context (h : list Obj).

Lemma closed_weaken hi :
  (forall lo r t, closed h hi lo r t ->
     forall hi' lo', lo' <= lo -> hi <= hi' -> closed h hi' lo' r t) /\
  (forall lo c t, closed_opt h hi lo c t ->
     forall hi' lo', lo' <= lo -> hi <= hi' -> closed_opt h hi' lo' c t) /\
  (forall lo rs ts, closed_list h hi lo rs ts ->
     forall hi' lo', lo' <= lo -> hi <= hi' -> closed_list h hi' lo' rs ts).
Proof.
  apply closed_mutind.
  - intros lo r o cs Hr Hl _ IH hi' lo' ??. constructor; [lia | done | apply IH; lia].
  - constructor.
  - constructor; auto.
  - constructor.
  - constructor; auto.
Qed.

Lemma closed_list_weaken hi lo rs ts hi' lo' :
  closed_list h hi lo rs ts -> lo' <= lo -> hi <= hi' ->
  closed_list h hi' lo' rs ts.
Proof. intros H ??. by eapply (proj2 (proj2 (closed_weaken hi))). Qed.

Lemma closed_alloc hi o' :
  hi <= length h ->
  (forall lo r t, closed h hi lo r t -> closed (h ++ [o']) hi lo r t) /\
  (forall lo c t, closed_opt h hi lo c t -> closed_opt (h ++ [o']) hi lo c t) /\
  (forall lo rs ts, closed_list h hi lo rs ts -> closed_list (h ++ [o']) hi lo rs ts).
Proof.
  intros Hhi. apply closed_mutind; try by constructor.
  intros lo r o cs Hr Hl _ IH. constructor; [done | | done].
  rewrite lookup_app_l; [done | lia].
Qed.

Lemma closed_frame hi g p :
  (forall lo r t, closed h hi lo r t -> p < lo \/ hi <= p -> closed (alter g p h) hi lo r t) /\
  (forall lo c t, closed_opt h hi lo c t -> p < lo \/ hi <= p -> closed_opt (alter g p h) hi lo c t) /\
  (forall lo rs ts, closed_list h hi lo rs ts -> p < lo \/ hi <= p -> closed_list (alter g p h) hi lo rs ts).
Proof.
  apply closed_mutind; try (constructor; by auto).
  intros lo r o cs Hr Hl _ IH Hp. constructor; [done | | apply IH; lia].
  rewrite list_lookup_alter_ne; [done | lia].
Qed.

Lemma closed_list_snoc hi lo rs ts r t :
  closed_list h hi lo rs ts -> closed h hi lo r t ->
  closed_list h hi lo (rs ++ [r]) (ts ++ [t]).
Proof.
  induction 1; intros; simpl; repeat constructor; auto.
Qed.

Lemma reify_closed hi :
  (forall lo r t, closed h hi lo r t ->
     forall fuel, hi - lo <= fuel -> reify fuel h r = Some t) /\
  (forall lo c t, closed_opt h hi lo c t ->
     forall fuel, hi - lo <= fuel ->
     match c with None => Some None | Some rs => Some <$> mapM (reify fuel h) rs end = Some t) /\
  (forall lo rs ts, closed_list h hi lo rs ts ->
     forall fuel, hi - lo <= fuel -> mapM (reify fuel h) rs = Some ts).
Proof.
  apply closed_mutind.
  - intros lo r o cs Hr Hl _ IH [|fuel] Hf; [lia|]. simpl.
    rewrite Hl. simpl. rewrite IH; [done | lia].
  - done.
  - intros lo rs ts _ IH fuel Hf. by rewrite IH.
  - done.
  - intros lo r t rs ts _ IH1 _ IH2 fuel Hf.
    change (mapM (reify fuel h) (r :: rs)) with
      (y ← reify fuel h r; k ← mapM (reify fuel h) rs; mret (y :: k)).
    rewrite IH1, IH2; done.
Qed.

End Closed.

Lemma spine_lower h lo stk rs ts :
  spine h lo stk rs ts -> Forall (fun p => lo <= p < length h) stk.
Proof.
  induction 1 as [|lo p stk rs ts o cs fc Hc Hlo Hp Hl Hcs Hs IH]; constructor.
  - lia.
  - eapply Forall_impl; [exact IH|]. simpl. intros; lia.
Qed.

Lemma spine_close h lo stk rs ts :
  spine h lo stk rs ts -> closed_list h (length h) lo rs ts.
Proof.
  induction 1 as [|lo p stk rs ts o cs fc Hc Hlo Hp Hl Hcs Hs IH]; [done|].
  apply closed_list_snoc.
  - eapply closed_list_weaken; [exact Hc | lia | lia].
  - constructor; [lia | done |]. rewrite Hcs. by constructor.
Qed.

Lemma spine_pop h stk : forall popped lo rs ts,
  spine h lo (stk ++ popped) rs ts -> spine h lo stk rs ts.
Proof.
  induction stk as [|p stk IH]; intros popped lo rs ts H.
  - constructor. by eapply spine_close.
  - simpl in H. inversion H; subst. econstructor; eauto.
Qed.

Lemma spine_alloc h o' lo stk rs ts :
  spine h lo stk rs ts -> spine (h ++ [o']) lo stk rs ts.
Proof.
  induction 1 as [lo rs ts Hc|lo p stk rs ts o cs fc Hc Hlo Hp Hl Hcs Hs IH].
  - constructor. rewrite length_app. simpl.
    eapply closed_list_weaken; [|reflexivity|apply Nat.le_add_r].
    by apply closed_alloc.
  - econstructor; eauto.
    + apply closed_alloc; [lia | done].
    + rewrite length_app. lia.
    + rewrite lookup_app_l; [done | lia].
Qed.

Lemma on_last_snoc {A} (g : A -> A) l x :
  EntrySpec.on_last g (l ++ [x]) = l ++ [g x].
Proof.
  induction l as [|y l IH]; [done|]. simpl. rewrite IH.
  destruct l; done.
Qed.

Lemma leaf_node_of e :
  EntrySpec.leaf e =
  node_of (new_node e) (match e_type e with folder => Some [] | file => None end).
Proof. done. Qed.

(** Attaching below the top [T] of the stack: the cell of [T] is the
    only one that changes, and every closed subtree lies outside it. *)
Lemma spine_attach h e stkb : forall T lo rs ts,
  spine h lo (stkb ++ [T]) rs ts ->
  spine (alter (push_child (length h)) T (h ++ [new_node e])) lo
        (stkb ++ [T] ++ match e_type e with folder => [length h] | file => [] end)
        rs
        (EntrySpec.attach (length (stkb ++ [T])) (EntrySpec.leaf e) ts).
Proof.
  set (r := length h). set (h1 := h ++ [new_node e]).
  assert (Hlen : length h1 = S r) by (unfold h1; rewrite length_app; simpl; lia).
  induction stkb as [|p stkb IH]; intros T lo rs ts H; simpl in H.
  - inversion H as [|lo' p' stk' rs0 ts0 o cs fc Hc Hlo Hp Hl Hcs Hs]; subst.
    inversion Hs as [lo' rs' ts' Hcc|]; subst.
    simpl. rewrite on_last_snoc. simpl.
    assert (HT : alter (push_child r) T h1 !! T = Some (push_child r o)).
    { rewrite list_lookup_alter_eq. unfold h1. rewrite lookup_app_l by done.
      by rewrite Hl. }
    assert (Hr : alter (push_child r) T h1 !! r = Some (new_node e)).
    { rewrite list_lookup_alter_ne by lia. unfold h1.
      rewrite lookup_app_r by done. by rewrite Nat.sub_diag. }
    change (Node (o_name o) (o_path o) (o_type o) (o_level o) (o_supported o)
              (Some (fc ++ [EntrySpec.leaf e])))
      with (node_of (push_child r o) (Some (fc ++ [EntrySpec.leaf e]))).
    eapply spine_open; [ | done | rewrite length_alter; lia | exact HT | | ].
    + apply closed_frame; [|lia]. apply closed_alloc; [fold r; lia | done].
    + simpl. by rewrite Hcs.
    + simpl. destruct (e_type e) eqn:Hty.
      * (* folder: the new node is pushed *)
        replace (fc ++ [EntrySpec.leaf e]) with (fc ++ [node_of (new_node e) (Some [])])
          by (rewrite leaf_node_of, Hty; done).
        eapply spine_open; [ | lia | rewrite length_alter; lia | exact Hr | | ].
        -- apply closed_frame; [|lia]. apply closed_alloc; [done|]. exact Hcc.
        -- unfold new_node. by rewrite Hty.
        -- constructor. constructor.
      * constructor. rewrite length_alter, Hlen. apply closed_list_snoc.
        -- apply closed_frame; [|lia].
           eapply closed_list_weaken; [|reflexivity|apply Nat.le_succ_diag_r].
           apply closed_alloc; [done|]. exact Hcc.
        -- rewrite leaf_node_of, Hty. constructor; [lia | exact Hr |].
           unfold new_node. rewrite Hty. constructor.
  - inversion H as [|lo' p' stk' rs0 ts0 o cs fc Hc Hlo Hp Hl Hcs Hs]; subst.
    pose proof (spine_lower _ _ _ _ _ Hs) as Hlow.
    assert (HT : S p <= T < length h).
    { rewrite Forall_app, Forall_singleton in Hlow. tauto. }
    specialize (IH _ _ _ _ Hs).
    change (length ((p :: stkb) ++ [T])) with (S (length (stkb ++ [T]))).
    simpl. rewrite on_last_snoc. simpl.
    change (Node (o_name o) (o_path o) (o_type o) (o_level o) (o_supported o) ?c)
      with (node_of o c).
    eapply spine_open; [ | done | rewrite length_alter; lia | | exact Hcs | exact IH].
    + apply closed_frame; [|lia]. apply closed_alloc; [lia | done].
    + rewrite list_lookup_alter_ne by lia. unfold h1.
      rewrite lookup_app_l; [done | lia].
Qed.

Lemma level_at_alloc h o' r l : level_at h r l -> level_at (h ++ [o']) r l.
Proof.
  unfold level_at. intros H.
  destruct (h !! r) eqn:E; [|done].
  by rewrite (lookup_app_l_Some _ _ _ _ E).
Qed.

Lemma level_at_push h c p r l :
  level_at h r l -> level_at (alter (push_child c) p h) r l.
Proof.
  unfold level_at. intros H.
  destruct (decide (p = r)) as [->|Hne].
  - rewrite list_lookup_alter_eq. by destruct (h !! r).
  - by rewrite list_lookup_alter_ne.
Qed.

Lemma pop_while_close h lvl : forall stk open,
  Forall2 (level_at h) stk open ->
  exists popped,
    stk = popped ++ pop_while h lvl stk /\
    Forall2 (level_at h) (pop_while h lvl stk) (EntrySpec.close lvl open).
Proof.
  induction 1 as [|r l stk open Hr Hrest IH].
  - exists []. split; [done | constructor].
  - simpl. unfold level_at in Hr.
    destruct (h !! r) as [o|] eqn:E; [|done].
    simpl in Hr. injection Hr as Hl. subst l.
    destruct (lvl <=? o_level o)%Z.
    + destruct IH as [popped [Heq HF]]. exists (r :: popped).
      split; [simpl; by f_equal | done].
    + exists []. split; [done|]. constructor; [|done].
      unfold level_at. by rewrite E.
Qed.

Lemma spine_attach_root h e rs ts :
  spine h 0 [] rs ts ->
  spine (h ++ [new_node e]) 0
        (match e_type e with folder => [length h] | file => [] end)
        (rs ++ [length h]) (ts ++ [EntrySpec.leaf e]).
Proof.
  intros H. inversion H as [lo rs' ts' Hc|]; subst.
  assert (Hr : (h ++ [new_node e]) !! length h = Some (new_node e)).
  { rewrite lookup_app_r by done. by rewrite Nat.sub_diag. }
  assert (Hlen : length (h ++ [new_node e]) = S (length h))
    by (rewrite length_app; simpl; lia).
  rewrite leaf_node_of. destruct (e_type e) eqn:Hty.
  - eapply spine_open; [ | lia | lia | exact Hr | | ].
    + by apply closed_alloc.
    + unfold new_node. by rewrite Hty.
    + constructor. constructor.
  - constructor. rewrite Hlen. apply closed_list_snoc.
    + eapply closed_list_weaken; [|reflexivity|apply Nat.le_succ_diag_r].
      by apply closed_alloc.
    + constructor; [lia | exact Hr |]. unfold new_node. rewrite Hty. constructor.
Qed.

Lemma step_refines s ps e :
  refines s ps -> refines (step s e) (EntrySpec.step ps e).
Proof.
  destruct s as [h tr stk], ps as [f open]. unfold refines. simpl.
  intros [Hsp Hlv].
  set (h1 := h ++ [new_node e]).
  assert (Hlv1 : Forall2 (level_at h1) stk open).
  { eapply Forall2_impl; [exact Hlv|]. intros. by apply level_at_alloc. }
  destruct (pop_while_close h1 (e_level e) _ _ Hlv1) as [popped [Hstk Hlv2]].
  assert (Hnew : level_at h1 (length h) (e_level e)).
  { unfold level_at, h1. rewrite lookup_app_r by done. by rewrite Nat.sub_diag. }
  unfold step, EntrySpec.step. simpl. fold h1.
  set (stk' := pop_while h1 (e_level e) stk) in *.
  set (open' := EntrySpec.close (e_level e) open) in *.
  assert (Hsp' : spine h 0 (rev stk') tr f).
  { rewrite Hstk, rev_app_distr in Hsp. by eapply spine_pop. }
  pose proof (Forall2_length _ _ _ Hlv2) as Hlen.
  destruct stk' as [|T rest] eqn:Estk.
  - destruct open' as [|? ?]; [|done]. simpl.
    pose proof (spine_attach_root _ e _ _ Hsp') as Hroot.
    destruct (e_type e); simpl; (split; [exact Hroot|]).
    + constructor; [exact Hnew | constructor].
    + constructor.
  - simpl in Hsp'. pose proof (spine_attach _ e _ _ _ _ _ Hsp') as Hat.
    rewrite length_app, length_rev in Hat. simpl in Hat.
    rewrite Nat.add_1_r in Hat. simpl in Hlen. rewrite Hlen in Hat.
    assert (Hlv3 : Forall2 (level_at (alter (push_child (length h)) T h1))
                     (T :: rest) open').
    { eapply Forall2_impl; [exact Hlv2|]. intros. by apply level_at_push. }
    destruct (e_type e); simpl; split.
    + rewrite <- app_assoc. exact Hat.
    + constructor; [|exact Hlv3]. by apply level_at_push.
    + exact Hat.
    + exact Hlv3.
Qed.

Lemma run_refines entries :
  refines (run entries) (foldl EntrySpec.step ([], []) entries).
Proof.
  unfold run.
  assert (H0 : refines init ([], [])).
  { split; simpl; [repeat constructor | constructor]. }
  revert H0. generalize init, (@nil TreeNode, @nil Z).
  induction entries as [|e es IH]; intros s ps H; [done|].
  simpl. apply IH. by apply step_refines.
Qed.

Lemma buildTree_refines entries :
  buildTree entries = Some (EntrySpec.buildTree entries).
Proof.
  unfold buildTree, EntrySpec.buildTree.
  destruct (run_refines entries) as [Hsp _].
  apply spine_close in Hsp.
  eapply reify_closed; [exact Hsp | lia].
Qed.

(** ** Entry-based builder: shape of the trees *)

Lemma open_chain_mono d : forall d' f, d' <= d -> open_chain d f -> open_chain d' f.
Proof.
  induction d as [|d IH]; intros [|d'] f Hle H; try done; [lia|].
  destruct H as (f0 & t & -> & Hty & H). exists f0, t.
  repeat split; [done|]. apply IH; [lia | done].
Qed.

Lemma close_length lvl open : length (EntrySpec.close lvl open) <= length open.
Proof.
  induction open as [|l open IH]; [done|]. simpl.
  destruct (lvl <=? l)%Z; simpl; lia.
Qed.

Lemma wf_folder_children t :
  wf_node t = true -> type t = folder ->
  forallb wf_node (default [] (children t)) = true.
Proof. destruct t as [n p ty l s [cs|]]; simpl; intros H ->; done. Qed.

Lemma attach_wf n d : forall f,
  wf_node n = true -> forallb wf_node f = true -> open_chain d f ->
  forallb wf_node (EntrySpec.attach d n f) = true.
Proof.
  induction d as [|d IH]; intros f Hn Hf Hc; simpl.
  - rewrite forallb_app, Hf. simpl. by rewrite Hn.
  - destruct Hc as (f0 & t & -> & Hty & Hc).
    rewrite on_last_snoc. rewrite forallb_app in Hf |- *.
    apply andb_true_iff in Hf as [Hf0 Ht]. simpl in Ht.
    rewrite andb_true_r in Ht. rewrite Hf0. simpl. rewrite andb_true_r.
    rewrite Hty. apply IH; [done | by apply wf_folder_children | done].
Qed.

Lemma attach_chain n d : forall f,
  open_chain d f ->
  open_chain d (EntrySpec.attach d n f) /\
  (type n = folder -> open_chain (S d) (EntrySpec.attach d n f)).
Proof.
  induction d as [|d IH]; intros f Hc.
  - split; [done|]. intros Hn. exists f, n. done.
  - destruct Hc as (f0 & t & -> & Hty & Hc).
    destruct (IH _ Hc) as [IH1 IH2].
    cbn [EntrySpec.attach]. rewrite on_last_snoc. split.
    + eexists f0, _. repeat split; done.
    + intros Hn. eexists f0, _. repeat split; [done|]. simpl. by apply IH2.
Qed.

Lemma leaf_wf e : wf_node (EntrySpec.leaf e) = true.
Proof. unfold EntrySpec.leaf. by destruct (e_type e). Qed.

Lemma spec_step_inv ps e : spec_inv ps -> spec_inv (EntrySpec.step ps e).
Proof.
  destruct ps as [f open]. unfold spec_inv, EntrySpec.step. simpl.
  intros [Hwf Hc].
  set (open' := EntrySpec.close (e_level e) open).
  assert (Hc' : open_chain (length open') f).
  { eapply open_chain_mono; [apply close_length | done]. }
  split; [apply attach_wf; auto using leaf_wf|].
  destruct (attach_chain (EntrySpec.leaf e) _ _ Hc') as [H1 H2].
  destruct (e_type e) eqn:Hty; [|done].
  apply H2. unfold EntrySpec.leaf. simpl. done.
Qed.

Lemma spec_buildTree_wf entries :
  forallb wf_node (EntrySpec.buildTree entries) = true.
Proof.
  unfold EntrySpec.buildTree.
  assert (H0 : spec_inv ([], [])) by done.
  revert H0. generalize (@nil TreeNode, @nil Z).
  induction entries as [|e es IH]; intros ps H; [by destruct H|].
  simpl. apply IH. by apply spec_step_inv.
Qed.

(** ** Path-based builder *)

Lemma trie_size_child (kids : gmap string Trie) k c :
  kids !! k = Some c ->
  trie_size c <= map_fold (fun _ c acc => trie_size c + acc) 0 kids.
Proof.
  intros Hk.
  rewrite (map_fold_delete_L _ _ k c kids); [lia | | done].
  intros. lia.
Qed.

Lemma Trie_ind' (P : Trie -> Prop) :
  (forall n p ty kids, (forall k c, kids !! k = Some c -> P c) -> P (TNode n p ty kids)) ->
  forall t, P t.
Proof.
  intros Hnode t.
  induction (Nat.lt_wf_0_projected trie_size t) as [[n p ty kids] _ IH].
  apply Hnode. intros k c Hk. apply IH. simpl.
  pose proof (trie_size_child kids k c Hk). lia.
Qed.

(** *** The order of [Array.prototype.sort()] on strings *)

Lemma unit_rank_inj x y : unit_rank x = unit_rank y -> x = y.
Proof.
  intros H. rewrite <- (ascii_N_embedding x), <- (ascii_N_embedding y). f_equal.
  pose proof (N_ascii_bounded x). pose proof (N_ascii_bounded y).
  unfold unit_rank in H.
  destruct (N.ltb_spec (N_of_ascii x) 238), (N.ltb_spec (N_of_ascii x) 240),
           (N.ltb_spec (N_of_ascii y) 238), (N.ltb_spec (N_of_ascii y) 240); lia.
Qed.

Lemma code_unit_leb_trans a : forall b c,
  code_unit_leb a b = true -> code_unit_leb b c = true -> code_unit_leb a c = true.
Proof.
  induction a as [|x a IH]; intros [|y b] [|z c]; simpl; try done.
  destruct (Ascii.eqb_spec x y) as [->|Hxy].
  - destruct (Ascii.eqb_spec y z); [apply IH | by intros _ H].
  - destruct (Ascii.eqb_spec y z) as [->|Hyz].
    + destruct (Ascii.eqb_spec x z); [done | by intros H _].
    + intros H1%N.ltb_lt H2%N.ltb_lt.
      destruct (Ascii.eqb_spec x z) as [->|Hxz]; [lia|]. apply N.ltb_lt. lia.
Qed.

Lemma code_unit_leb_total a : forall b,
  code_unit_leb a b = true \/ code_unit_leb b a = true.
Proof.
  induction a as [|x a IH]; intros [|y b]; simpl; auto.
  rewrite (Ascii.eqb_sym y x).
  destruct (Ascii.eqb_spec x y) as [->|Hxy]; [apply IH|].
  assert (unit_rank x <> unit_rank y) by (intros H; by apply unit_rank_inj in H).
  destruct (N.ltb_spec (unit_rank x) (unit_rank y)); [by left|right].
  apply N.ltb_lt. lia.
Qed.



#[local] Instance key_le_total : Total key_le.
Proof. intros [a ?] [b ?]. unfold key_le. simpl. apply code_unit_leb_total. Qed.

#[local] Instance key_le_trans : Transitive key_le.
Proof. intros [a ?] [b ?] [c ?]. unfold key_le. simpl. apply code_unit_leb_trans. Qed.


Section InKeyOrder.
Context (m : gmap string TreeNode).

Lemma elem_of_in_key_order t :
  t ∈ in_key_order m <-> exists k, m !! k = Some t.
Proof.
  unfold in_key_order. rewrite list_elem_of_fmap. split.
  - intros [[k t'] [-> Hin]]. rewrite merge_sort_Permutation in Hin.
    exists k. by apply elem_of_map_to_list.
  - intros [k Hk]. exists (k, t). split; [done|].
    rewrite merge_sort_Permutation. by apply elem_of_map_to_list.
Qed.


End InKeyOrder.

Lemma forallb_in_key_order (P : TreeNode -> bool) m :
  (forall k t, m !! k = Some t -> P t = true) ->
  forallb P (in_key_order m) = true.
Proof.
  intros H. apply forallb_forall. intros t Hin.
  apply list_elem_of_In, elem_of_in_key_order in Hin as [k Hk]. eauto.
Qed.

Lemma toNode_wf t : forall lvl, wf_node (toNode lvl t) = true.
Proof.
  induction t as [n p ty kids IH] using Trie_ind'. intros lvl.
  destruct ty; simpl; [|done].
  apply forallb_in_key_order. intros k t. rewrite lookup_fmap.
  destruct (kids !! k) as [c|] eqn:E; [|done]. simpl. intros [= <-]. eauto.
Qed.

Lemma toNodes_wf kids lvl : forallb wf_node (toNodes kids lvl) = true.
Proof.
  apply forallb_in_key_order. intros k t. rewrite lookup_fmap.
  destruct (kids !! k) as [c|]; [|done]. simpl. intros [= <-]. apply toNode_wf.
Qed.

(** *** What every insertion preserves *)

(** The two ways in which [insert_parts] changes the dictionary at
    hand. *)
Lemma insert_parts_cons f agg s rest kids :
  insert_parts f agg (s :: rest) kids =
  match kids !! s with
  | Some child =>
      <[s := TNode (t_name child) (t_path child) (t_type child)
                   (insert_parts f (agg +:+ "/" +:+ s) rest (t_children child))]> kids
  | None =>
      if inherited f s then kids
      else <[s := TNode s (agg +:+ "/" +:+ s)
                    (match rest with [] => file | _ => folder end)
                    (insert_parts f (agg +:+ "/" +:+ s) rest ∅)]> kids
  end.
Proof. reflexivity. Qed.

Lemma insert_parts_lookup_ne f agg s rest kids k :
  s <> k -> insert_parts f agg (s :: rest) kids !! k = kids !! k.
Proof.
  intros Hne. rewrite insert_parts_cons.
  destruct (kids !! s); [by rewrite lookup_insert_ne|].
  destruct (inherited f s); [done | by rewrite lookup_insert_ne].
Qed.

(** The node under the key that [insert_parts] goes through. *)
Lemma insert_parts_lookup_eq f agg s rest kids :
  insert_parts f agg (s :: rest) kids !! s =
  match kids !! s with
  | Some child =>
      Some (TNode (t_name child) (t_path child) (t_type child)
                  (insert_parts f (agg +:+ "/" +:+ s) rest (t_children child)))
  | None =>
      if inherited f s then None
      else Some (TNode s (agg +:+ "/" +:+ s)
                   (match rest with [] => file | _ => folder end)
                   (insert_parts f (agg +:+ "/" +:+ s) rest ∅))
  end.
Proof.
  rewrite insert_parts_cons.
  destruct (kids !! s) eqn:E; [by rewrite lookup_insert_eq|].
  destruct (inherited f s); [done | by rewrite lookup_insert_eq].
Qed.

Lemma inherited_mono s : inherited false s = true -> forall f, inherited f s = true.
Proof.
  unfold inherited. intros H f. apply orb_true_iff in H as [H|H]; [|done].
  by rewrite H.
Qed.












(** *** Order of the children *)





(** *** The state of [Object.prototype] along the paths *)

Lemma inherited_le f f' s :
  (f = true -> f' = true) -> inherited f s = true -> inherited f' s = true.
Proof.
  intros Hle. destruct f; [by rewrite Hle | intros H; by apply inherited_mono].
Qed.

Lemma foldl_insert_proto l : forall b,
  proto_children (foldl insert_path b l) =
  proto_children b || existsb (fun p => pollutes (path_segments p)) l.
Proof.
  induction l as [|x l IH]; intros b; simpl; [by rewrite orb_false_r|].
  rewrite IH. simpl. by rewrite orb_assoc.
Qed.

(** ** Path-based builder: a path given twice *)

Lemma insert_parts_settled f parts : forall agg kids,
  settled f parts (insert_parts f agg parts kids).
Proof.
  induction parts as [|s rest IH]; intros agg kids; [done|].
  cbn [settled]. rewrite insert_parts_lookup_eq.
  destruct (kids !! s) as [d|]; [apply IH|].
  destruct (inherited f s) eqn:E; [done | apply IH].
Qed.

Lemma settled_le f f' parts : forall kids,
  (f = true -> f' = true) -> settled f parts kids -> settled f' parts kids.
Proof.
  induction parts as [|s rest IH]; intros kids Hle; [done|]. cbn [settled].
  destruct (kids !! s); [by apply IH | by apply inherited_le].
Qed.

Lemma insert_parts_keeps_settled f f' qs : forall ps agg kids,
  (f = true -> f' = true) ->
  settled f ps kids -> settled f ps (insert_parts f' agg qs kids).
Proof.
  induction qs as [|q qs IH]; intros ps agg kids Hle Hp; [done|].
  destruct ps as [|s ps]; [done|]. cbn [settled] in Hp |- *.
  destruct (decide (q = s)) as [->|Hne].
  - rewrite insert_parts_lookup_eq.
    destruct (kids !! s) as [d|]; [by apply IH|].
    by rewrite (inherited_le f f' s Hle Hp).
  - by rewrite insert_parts_lookup_ne.
Qed.

Lemma insert_parts_id f parts : forall agg kids,
  settled f parts kids -> insert_parts f agg parts kids = kids.
Proof.
  induction parts as [|s rest IH]; intros agg kids Hp; [done|].
  cbn [settled] in Hp. rewrite insert_parts_cons.
  destruct (kids !! s) as [d|] eqn:E.
  - rewrite IH by done. apply insert_id. rewrite E. by destruct d.
  - by rewrite Hp.
Qed.

Lemma foldl_insert_keeps_settled f ps l : forall b,
  (f = true -> proto_children b = true) ->
  settled f ps (root_children b) ->
  settled f ps (root_children (foldl insert_path b l)).
Proof.
  induction l as [|x l IH]; intros b Hle Hp; [done|].
  simpl. apply IH.
  - intros Hf. simpl. by rewrite (Hle Hf).
  - by apply insert_parts_keeps_settled.
Qed.

Lemma foldl_insert_settled p l : forall b,
  p ∈ l ->
  settled (proto_children (foldl insert_path b l)) (path_segments p)
          (root_children (foldl insert_path b l)).
Proof.
  induction l as [|x l IH]; intros b Hin; [by apply elem_of_nil in Hin|].
  apply elem_of_cons in Hin as [<-|Hin]; simpl; [|by apply IH].
  apply (settled_le (proto_children b)).
  - rewrite foldl_insert_proto. simpl. intros ->. done.
  - apply foldl_insert_keeps_settled.
    + simpl. intros ->. done.
    + apply insert_parts_settled.
Qed.

Lemma buildTreeFromFilePaths_repeat l1 l2 p :
  p ∈ l1 \/ path_segments p = [] ->
  buildTreeFromFilePaths (l1 ++ p :: l2) = buildTreeFromFilePaths (l1 ++ l2).
Proof.
  intros Hp. unfold buildTreeFromFilePaths. rewrite !foldl_app. simpl.
  do 3 f_equal. set (b := foldl insert_path (mkBuild ∅ false) l1).
  unfold insert_path. destruct Hp as [Hin|Hnil].
  - rewrite insert_parts_id by (by apply foldl_insert_settled).
    assert (Hflag : proto_children b || pollutes (path_segments p) = proto_children b).
    { unfold b. rewrite foldl_insert_proto. simpl.
      destruct (pollutes (path_segments p)) eqn:E; [|by rewrite orb_false_r].
      rewrite orb_true_r. symmetry. apply existsb_exists.
      exists p. split; [by apply list_elem_of_In | done]. }
    rewrite Hflag. by destruct b.
  - rewrite Hnil. simpl. rewrite orb_false_r. by destruct b.
Qed.

(** ** Path-based builder: paths and levels of the nodes *)



(** ** Splitting and joining paths *)

Lemma string_app_cons x (a b : string) : String x a +:+ b = String x (a +:+ b).
Proof. reflexivity. Qed.

Lemma string_app_assoc (a b c : string) : (a +:+ b) +:+ c = a +:+ (b +:+ c).
Proof.
  induction a as [|x a IH]; [done|]. by rewrite !string_app_cons, IH.
Qed.

Lemma string_app_empty_r (a : string) : a +:+ "" = a.
Proof. induction a as [|x a IH]; [done|]. by rewrite string_app_cons, IH. Qed.

Lemma foldl_join parts : forall agg,
  foldl (fun agg seg => agg +:+ "/" +:+ seg) agg parts = agg +:+ join_from parts.
Proof.
  induction parts as [|s rest IH]; intros agg; simpl.
  - by rewrite string_app_empty_r.
  - rewrite IH. by rewrite !string_app_assoc.
Qed.

Lemma join_path_from parts : join_path parts = join_from parts.
Proof. unfold join_path. by rewrite foldl_join. Qed.

Lemma split_on_skip sep s : forall cur t,
  has_char sep s = false ->
  split_on sep cur (s +:+ t) = split_on sep (cur +:+ s) t.
Proof.
  induction s as [|c s IH]; intros cur t Hs.
  - by rewrite string_app_empty_r.
  - simpl in Hs. apply orb_false_iff in Hs as [Hc Hs].
    rewrite string_app_cons. cbn [split_on].
    rewrite Hc, IH by done. by rewrite string_app_assoc.
Qed.

Lemma split_on_join parts : forall cur,
  Forall segment_ok parts ->
  split_on "/" cur (join_from parts) =
  match parts with [] => [cur] | _ => cur :: parts end.
Proof.
  induction parts as [|s rest IH]; intros cur Hok; [done|].
  apply Forall_cons in Hok as [[_ Hs] Hok].
  change (join_from (s :: rest)) with (String "/" (s +:+ join_from rest)).
  cbn [split_on]. change (Ascii.eqb "/" "/") with true. cbv iota.
  rewrite split_on_skip by done. rewrite IH by done. simpl.
  by destruct rest.
Qed.

Lemma path_segments_join parts :
  Forall segment_ok parts -> path_segments (join_path parts) = parts.
Proof.
  intros Hok. unfold path_segments. rewrite join_path_from, split_on_join by done.
  assert (Hfil : filter (fun seg => Is_true (nonempty seg)) parts = parts).
  { clear -Hok. induction Hok as [|s rest [Hs _] _ IH]; [done|].
    rewrite filter_cons_True by (by rewrite Hs). by rewrite IH. }
  destruct parts as [|s rest]; [done|].
  rewrite filter_cons_False by (simpl; tauto). done.
Qed.

Lemma has_char_app c a b : has_char c (a +:+ b) = has_char c a || has_char c b.
Proof.
  induction a as [|x a IH]; [done|].
  rewrite string_app_cons. simpl. by rewrite IH, orb_assoc.
Qed.

Lemma split_on_no_sep sep s : forall cur,
  has_char sep cur = false -> Forall (fun seg => has_char sep seg = false) (split_on sep cur s).
Proof.
  induction s as [|c s IH]; intros cur Hcur; simpl.
  - by constructor.
  - destruct (Ascii.eqb c sep) eqn:E.
    + constructor; [done|]. by apply IH.
    + apply IH. rewrite has_char_app, Hcur. simpl. by rewrite E.
Qed.

Lemma path_segments_ok p : Forall segment_ok (path_segments p).
Proof.
  unfold path_segments. apply Forall_forall. intros seg Hin.
  apply list_elem_of_filter in Hin as [Hne Hin]. split.
  - by apply Is_true_true.
  - pose proof (split_on_no_sep "/" p "" eq_refl) as Hall.
    rewrite Forall_forall in Hall. by apply Hall.
Qed.

Lemma path_segments_idem p :
  path_segments (join_path (path_segments p)) = path_segments p.
Proof. apply path_segments_join, path_segments_ok. Qed.

(** ** Path-based builder: the nodes of the tree and the paths given *)




















(** ** Path-based builder: the order of the paths *)






(** *** When [Object.prototype.children] makes no difference *)





Section Static.
Variable paths : list string.
Hypothesis before_proto : children_before_proto paths.



End Static.

(** *** Two insertions in either order *)







(** *** What the first path creates, and what stays *)








(** *** The lists whose order does not matter *)


(** ** Findings *)

Lemma set_add_foldl l : forall acc,
  foldl set_add acc l = acc ++ dedup_first (filter (fun x => x ∉ acc) l).
Proof.
  induction l as [|x l IH]; intros acc.
  - simpl. simp dedup_first. by rewrite app_nil_r.
  - simpl. rewrite IH. unfold set_add.
    destruct (decide (x ∈ acc)) as [Hin|Hnin].
    + by rewrite filter_cons_False by tauto.
    + rewrite filter_cons_True by done. simp dedup_first.
      rewrite <- app_assoc. simpl. do 3 f_equal.
      rewrite list_filter_filter. apply list_filter_iff.
      intros y. rewrite elem_of_app, list_elem_of_singleton. tauto.
Qed.

Lemma array_from_set_dedup l : array_from_set l = dedup_first l.
Proof.
  unfold array_from_set. rewrite set_add_foldl. simpl. f_equal.
  induction l as [|x l IH]; [done|].
  rewrite filter_cons_True by apply not_elem_of_nil. by f_equal.
Qed.

Lemma push_all_app v field : push_all v field = v ++ default [] field.
Proof.
  unfold push_all. destruct field as [[|x l]|]; simpl; by rewrite ?app_nil_r.
Qed.

Lemma collect_concat field r :
  collect field r =
  concat (map (fun rev => default [] (crypto_summary rev ≫= field)) (all_reviews r)).
Proof.
  destruct r as [r|]; [|done]. unfold collect, all_reviews. simpl.
  destruct (detailed_reviews r) as [l|]; [|done].
  assert (Hgen : forall v,
    foldl (fun v rev => push_all v (crypto_summary rev ≫= field)) v l =
    v ++ concat (map (fun rev => default [] (crypto_summary rev ≫= field)) l)).
  { induction l as [|rev l IH]; intros v; simpl; [by rewrite app_nil_r|].
    by rewrite IH, push_all_app, <- app_assoc. }
  destruct l as [|rev l]; [done|].
  change (has_length (Some (rev :: l))) with true. cbv iota.
  apply (Hgen []).
Qed.

Lemma findings_aggregated field r : uniq (collect field r) = aggregated field r.
Proof. unfold uniq, aggregated. by rewrite array_from_set_dedup, collect_concat. Qed.

Lemma folder_sum_count_under prefix (m : gmap string nat) :
  map_fold (fun p v sum => if String.prefix prefix p then sum + v else sum) 0 m =
  count_under prefix m.
Proof.
  unfold count_under.
  induction m as [|p v m Hp IH] using map_ind.
  - by rewrite map_fold_empty, map_filter_empty, map_to_list_empty.
  - rewrite map_fold_insert_L; [| |done].
    + rewrite IH. destruct (String.prefix prefix p) eqn:E.
      * rewrite map_filter_insert_True by (simpl; by rewrite E).
        rewrite map_to_list_insert by (apply map_lookup_filter_None; by left).
        simpl. lia.
      * rewrite map_filter_insert_not
          by (intros y Hy; simpl in Hy; by rewrite E in Hy).
        done.
    + intros j1 j2 z1 z2 y _ _ _.
      destruct (String.prefix prefix j1), (String.prefix prefix j2); lia.
Qed.

Lemma findingsCountByPath_snoc files e :
  findingsCountByPath (files ++ [e]) =
  <[file_path (analysis e) := findings_count (analysis e)]> (findingsCountByPath files).
Proof. unfold findingsCountByPath. by rewrite foldl_app. Qed.


(** ** Progress indicator *)

Lemma hundreds_set v p :
  hundreds (setProgressPct v p) =
  hundreds p + (if Qeq_bool v 100 then 1 else 0).
Proof.
  unfold hundreds, setProgressPct. simpl. rewrite filter_app, length_app.
  f_equal. rewrite filter_cons, filter_nil. destruct (Qeq_bool v 100); done.
Qed.

Lemma Qeq_bool_below v : (v < 100)%Q -> Qeq_bool v 100 = false.
Proof.
  intros Hlt. destruct (Qeq_bool v 100) eqn:E; [|done].
  apply Qeq_bool_iff in E. lra.
Qed.

Lemma hundreds_step cfg s ev :
  sound_cfg cfg ->
  hundreds (prog (exec cfg s ev)) = hundreds (prog s) + (if is_resolved ev then 1 else 0).
Proof.
  intros [Hc1 Hc2]. destruct ev as [|rnd| |ms|]; simpl.
  - unfold startProgress. cbn [writes setProgressPct hundreds].
    change (hundreds (setProgressPct 1 (prog s)) = hundreds (prog s) + 0).
    rewrite hundreds_set. by rewrite Qeq_bool_below by lra.
  - destruct (interval (prog s)); [|lia]. simpl. unfold interval_tick.
    rewrite hundreds_set. rewrite Qeq_bool_below; [done|].
    pose proof (Q.le_min_r (progressPct (prog s) + (rnd * 6 + 1)) (ceiling cfg)). lra.
  - change (hundreds (setProgressPct 100 (prog s)) = hundreds (prog s) + 1).
    by rewrite hundreds_set.
  - lia.
  - destruct (resets (prog s)) as [|due rest]; [lia|].
    destruct (due <=? clock s); [|lia]. simpl.
    change (hundreds (setProgressPct 0 (prog s)) = hundreds (prog s) + 0).
    rewrite hundreds_set. by rewrite Qeq_bool_below by lra.
Qed.

Section Lifecycle.
Context (cfg : ProgressCfg) (Hcfg : sound_cfg cfg).










End Lifecycle.

(** ** Entry-based builder: the stack holds folders *)

Lemma run_snoc es e : run (es ++ [e]) = step (run es) e.
Proof. unfold run. by rewrite foldl_app. Qed.

Lemma pop_while_suffix h lvl stk :
  exists popped, stk = popped ++ pop_while h lvl stk.
Proof.
  induction stk as [|r stk [popped IH]]; [by exists []|].
  simpl. destruct (h !! r) as [o|]; [|by exists []].
  destruct (lvl <=? o_level o)%Z; [|by exists []].
  exists (r :: popped). simpl. by f_equal.
Qed.

Lemma folder_at_alloc (h : list Obj) o' (r : nat) :
  o_type <$> h !! r = Some folder -> o_type <$> (h ++ [o']) !! r = Some folder.
Proof.
  intros H. destruct (h !! r) eqn:E; [|done].
  by rewrite (lookup_app_l_Some _ _ _ _ E).
Qed.

Lemma folder_at_push (h : list Obj) c (p r : nat) :
  o_type <$> h !! r = Some folder ->
  o_type <$> alter (push_child c) p h !! r = Some folder.
Proof.
  intros H. destruct (decide (p = r)) as [->|Hne].
  - rewrite list_lookup_alter_eq. by destruct (h !! r).
  - by rewrite list_lookup_alter_ne.
Qed.

Lemma step_stack_folders s e :
  Forall (fun r => o_type <$> store s !! r = Some folder) (stack s) ->
  Forall (fun r => o_type <$> store (step s e) !! r = Some folder) (stack (step s e)).
Proof.
  intros Hs. unfold step.
  set (h := store s ++ [new_node e]).
  assert (Hh : Forall (fun r => o_type <$> h !! r = Some folder)
                 (pop_while h (e_level e) (stack s))).
  { destruct (pop_while_suffix h (e_level e) (stack s)) as [popped Heq].
    rewrite Heq in Hs. apply Forall_app in Hs as [_ Hs].
    eapply Forall_impl; [exact Hs|]. intros r. apply folder_at_alloc. }
  assert (Hnew : o_type <$> h !! length (store s) = Some (e_type e)).
  { unfold h. rewrite lookup_app_r by done. by rewrite Nat.sub_diag. }
  destruct (pop_while h (e_level e) (stack s)) as [|parent rest] eqn:E; simpl.
  - destruct (e_type e); [|done]. by repeat constructor.
  - assert (Hh' : Forall (fun r => o_type <$> alter (push_child (length (store s))) parent h !! r
                                   = Some folder) (parent :: rest)).
    { eapply Forall_impl; [exact Hh|]. intros r. apply folder_at_push. }
    destruct (e_type e); [|done]. constructor; [|done].
    by apply folder_at_push.
Qed.

Lemma run_stack_folders entries :
  Forall (fun r => o_type <$> store (run entries) !! r = Some folder)
         (stack (run entries)).
Proof.
  induction entries as [|e es IH] using rev_ind; [constructor|].
  rewrite run_snoc. by apply step_stack_folders.
Qed.

(** * The claims

    ** Tree builders *)

(** C2. The entry-based builder computes, for every sequence of entries,
    the forest of the stack algorithm of the specification
    ([EntrySpec.buildTree]: pop while the top level is [>=] the entry's
    level, append to the roots when the stack is empty and as the last
    child of the stack top otherwise, push folders only); the stack of
    the builder holds folder nodes only; on
    [{folder,a,0}, {folder,b,1}, {file,c,2}, {file,d,0}] the forest is
    the two roots [a { b { c } }] and [d]. *)
Theorem buildTree_follows_stack_algorithm :
  (forall entries, EntryTree.buildTree entries = Some (EntrySpec.buildTree entries)) /\
  (forall entries,
     Forall (fun r => o_type <$> store (run entries) !! r = Some folder)
            (stack (run entries))) /\
  EntryTree.buildTree ex_nested =
    Some [ Node "a" "/a" folder 0 None
             (Some [ Node "b" "/a/b" folder 1 None
                       (Some [ Node "c" "/a/b/c" file 2 None None ]) ]);
           Node "d" "/d" file 0 None None ].
Proof.
  split; [apply buildTree_refines|].
  split; [apply run_stack_folders | reflexivity].
Qed.

Lemma closed_by_alloc h o' lvl r : closed_by h lvl r -> closed_by (h ++ [o']) lvl r.
Proof.
  unfold closed_by. destruct (h !! r) as [o|] eqn:E; [|done].
  by rewrite (lookup_app_l_Some _ _ _ _ E).
Qed.

(** The loop pops the nodes at or below the level of the entry and
    stops at the first node above it. *)
Lemma pop_while_popped h lvl popped T rest o :
  Forall (closed_by h lvl) popped -> h !! T = Some o -> (o_level o < lvl)%Z ->
  pop_while h lvl (popped ++ T :: rest) = T :: rest.
Proof.
  intros Hpop Hl Hlt. induction Hpop as [|r popped Hr _ IH]; simpl.
  - rewrite Hl. destruct (lvl <=? o_level o)%Z eqn:E; [|done].
    apply Z.leb_le in E. lia.
  - unfold closed_by in Hr. destruct (h !! r) as [o'|]; [|done]. simpl in Hr.
    by rewrite (proj2 (Z.leb_le _ _) Hr).
Qed.

(** An entry goes below the first node of the stack that lies above it,
    whatever the distance between the two levels. *)
Lemma step_below s e popped T rest o :
  stack s = popped ++ T :: rest -> Forall (closed_by (store s) (e_level e)) popped ->
  store s !! T = Some o -> (o_level o < e_level e)%Z ->
  store (step s e) !! T = Some (push_child (length (store s)) o) /\
  store (step s e) !! length (store s) = Some (new_node e) /\
  tree (step s e) = tree s /\
  stack (step s e) =
    match e_type e with folder => length (store s) :: T :: rest | file => T :: rest end /\
  length (store (step s e)) = S (length (store s)).
Proof.
  intros Hstk Hpop Hl Hlt. unfold step. rewrite Hstk.
  pose proof (lookup_lt_Some _ _ _ Hl) as HT.
  rewrite (pop_while_popped _ _ _ _ _ o);
    [|eapply Forall_impl; [exact Hpop|]; intros r; apply closed_by_alloc
     |by rewrite lookup_app_l|done].
  simpl. repeat split.
  - rewrite list_lookup_alter_eq, lookup_app_l by done. by rewrite Hl.
  - rewrite list_lookup_alter_ne by lia.
    rewrite lookup_app_r by done. by rewrite Nat.sub_diag.
  - rewrite length_alter, length_app. simpl. lia.
Qed.

(** A second entry at the level of the first closes it, if it is a
    folder, and goes below the same node. *)
Lemma step_sibling s e1 e2 popped T rest o :
  stack s = popped ++ T :: rest -> Forall (closed_by (store s) (e_level e1)) popped ->
  store s !! T = Some o -> (o_level o < e_level e1)%Z -> e_level e2 = e_level e1 ->
  let r := length (store s) in
  let s2 := step (step s e1) e2 in
  store s2 !! T = Some (push_child (S r) (push_child r o)) /\
  store s2 !! r = Some (new_node e1) /\
  store s2 !! S r = Some (new_node e2) /\
  tree s2 = tree s.
Proof.
  intros Hstk Hpop Hl Hlt Heq r s2.
  destruct (step_below s e1 popped T rest o Hstk Hpop Hl Hlt) as (H1 & H2 & H3 & H4 & H5).
  fold r in H1, H2, H4, H5.
  pose proof (lookup_lt_Some _ _ _ Hl) as HT. fold r in HT.
  set (s1 := step s e1) in *.
  assert (Hstk1 : exists popped1, stack s1 = popped1 ++ T :: rest /\
                    Forall (closed_by (store s1) (e_level e2)) popped1).
  { rewrite H4. destruct (e_type e1).
    - exists [r]. split; [done|]. constructor; [|done].
      unfold closed_by. rewrite H2. simpl. lia.
    - by exists []. }
  destruct Hstk1 as (popped1 & Hstk1 & Hpop1).
  destruct (step_below s1 e2 popped1 T rest (push_child r o) Hstk1 Hpop1 H1)
    as (G1 & G2 & G3 & _); [simpl; lia|].
  rewrite H5 in G1, G2. subst s2. repeat split; [done| |done|congruence].
  unfold step. rewrite Hstk1.
  rewrite (pop_while_popped _ _ _ _ _ (push_child r o));
    [|eapply Forall_impl; [exact Hpop1|]; intros r'; apply closed_by_alloc
     |rewrite lookup_app_l by lia; done|simpl; lia].
  simpl. rewrite list_lookup_alter_ne by lia. rewrite lookup_app_l by lia. done.
Qed.

Lemma spec_below es e popped T rest o :
  stack (run es) = popped ++ T :: rest ->
  Forall (closed_by (store (run es)) (e_level e)) popped ->
  store (run es) !! T = Some o -> (o_level o < e_level e)%Z ->
  EntrySpec.buildTree (es ++ [e]) =
  EntrySpec.attach (S (length rest)) (EntrySpec.leaf e) (EntrySpec.buildTree es).
Proof.
  intros Hstk Hpop Hl Hlt. unfold EntrySpec.buildTree. rewrite foldl_app. simpl.
  destruct (run_refines es) as [_ Hlv].
  destruct (pop_while_close (store (run es)) (e_level e) _ _ Hlv) as [_ [_ Hcl]].
  rewrite Hstk, (pop_while_popped _ _ _ _ _ o) in Hcl by done.
  apply Forall2_length in Hcl. simpl in Hcl. by rewrite <- Hcl.
Qed.

Lemma spec_siblings es e1 e2 popped T rest o :
  stack (run es) = popped ++ T :: rest ->
  Forall (closed_by (store (run es)) (e_level e1)) popped ->
  store (run es) !! T = Some o -> (o_level o < e_level e1)%Z ->
  e_level e2 = e_level e1 ->
  EntrySpec.buildTree (es ++ [e1; e2]) =
  EntrySpec.attach (S (length rest)) (EntrySpec.leaf e2)
    (EntrySpec.attach (S (length rest)) (EntrySpec.leaf e1) (EntrySpec.buildTree es)).
Proof.
  intros Hstk Hpop Hl Hlt Heq.
  destruct (step_below _ e1 _ _ _ _ Hstk Hpop Hl Hlt) as (H1 & H2 & _ & H4 & _).
  rewrite <- run_snoc in H1, H2, H4.
  rewrite <- (spec_below es e1 popped T rest o) by done.
  change (es ++ [e1; e2]) with (es ++ [e1] ++ [e2]). rewrite app_assoc.
  destruct (e_type e1).
  - apply (spec_below _ e2 [length (store (run es))] T rest
             (push_child (length (store (run es))) o)); [done| |done|simpl; lia].
    constructor; [|done]. unfold closed_by. rewrite H2. simpl. lia.
  - apply (spec_below _ e2 [] T rest (push_child (length (store (run es))) o));
      [done|done|done|simpl; lia].
Qed.

(** C7. An entry becomes the last child of the first node of the stack
    that lies above it (the nodes before it on the stack, at or below
    the level of the entry, are popped), whether its level exceeds that
    of this node by one or by more; the empty sequence gives the empty
    forest; a second entry at the level of the first becomes the next
    child of the same node, and not a child of the first; in
    [{folder,a,0}, {file,x,1}, {file,y,1}] both [x] and [y] are
    children of [a]. *)
Theorem buildTree_attaches_to_nearest_open_folder :
  (forall es e popped T rest o,
     stack (run es) = popped ++ T :: rest ->
     Forall (closed_by (store (run es)) (e_level e)) popped ->
     store (run es) !! T = Some o -> (o_level o < e_level e)%Z ->
     let r := length (store (run es)) in
     let s' := run (es ++ [e]) in
     store s' !! T = Some (push_child r o) /\
     store s' !! r = Some (new_node e) /\
     tree s' = tree (run es) /\
     EntryTree.buildTree (es ++ [e]) =
       Some (EntrySpec.attach (S (length rest)) (EntrySpec.leaf e)
               (EntrySpec.buildTree es))) /\
  EntryTree.buildTree [] = Some [] /\
  (forall es e1 e2 popped T rest o,
     stack (run es) = popped ++ T :: rest ->
     Forall (closed_by (store (run es)) (e_level e1)) popped ->
     store (run es) !! T = Some o -> (o_level o < e_level e1)%Z ->
     e_level e2 = e_level e1 ->
     let r := length (store (run es)) in
     let s' := run (es ++ [e1; e2]) in
     store s' !! T = Some (push_child (S r) (push_child r o)) /\
     store s' !! r = Some (new_node e1) /\
     store s' !! S r = Some (new_node e2) /\
     tree s' = tree (run es) /\
     EntryTree.buildTree (es ++ [e1; e2]) =
       Some (EntrySpec.attach (S (length rest)) (EntrySpec.leaf e2)
               (EntrySpec.attach (S (length rest)) (EntrySpec.leaf e1)
                  (EntrySpec.buildTree es)))) /\
  EntryTree.buildTree ex_siblings =
    Some [ Node "a" "/a" folder 0 None
             (Some [ Node "x" "/a/x" file 1 None None;
                     Node "y" "/a/y" file 1 None None ]) ].
Proof.
  split; [|split; [reflexivity|split; [|reflexivity]]].
  - intros es e popped T rest o Hstk Hpop Hl Hlt r s'. subst r s'.
    rewrite run_snoc.
    destruct (step_below _ e _ _ _ _ Hstk Hpop Hl Hlt) as (H1 & H2 & H3 & _).
    repeat split; try done.
    rewrite buildTree_refines. f_equal. by eapply spec_below.
  - intros es e1 e2 popped T rest o Hstk Hpop Hl Hlt Heq r s'. subst r s'.
    assert (Hrun : run (es ++ [e1; e2]) = step (step (run es) e1) e2).
    { unfold run. by rewrite foldl_app. }
    rewrite Hrun.
    destruct (step_sibling _ e1 e2 _ _ _ _ Hstk Hpop Hl Hlt Heq) as (H1 & H2 & H3 & H4).
    repeat split; try done.
    rewrite buildTree_refines. f_equal. by eapply spec_siblings.
Qed.

Lemma buildTree_attaches_witness :
  EntryTree.buildTree
    ([mkEntry folder "a" "/a" 0 None; mkEntry folder "b" "/a/b" 1 None;
      mkEntry folder "c" "/a/b/c" 7 None] ++
     [mkEntry folder "x" "/a/b/x" 5 None; mkEntry file "y" "/a/b/y" 5 None]) =
  Some [ Node "a" "/a" folder 0 None
           (Some [ Node "b" "/a/b" folder 1 None
                     (Some [ Node "c" "/a/b/c" folder 7 None (Some []);
                             Node "x" "/a/b/x" folder 5 None (Some []);
                             Node "y" "/a/b/y" file 5 None None ]) ]) ].
Proof.
  refine (proj2 (proj2 (proj2 (proj2
    (proj1 (proj2 (proj2 buildTree_attaches_to_nearest_open_folder))
       [mkEntry folder "a" "/a" 0 None; mkEntry folder "b" "/a/b" 1 None;
        mkEntry folder "c" "/a/b/c" 7 None]
       (mkEntry folder "x" "/a/b/x" 5 None) (mkEntry file "y" "/a/b/y" 5 None)
       [2] 1 [0] (push_child 2 (new_node (mkEntry folder "b" "/a/b" 1 None)))
       eq_refl _ eq_refl _ eq_refl))))).
  - repeat constructor. unfold closed_by. simpl. lia.
  - simpl. lia.
Defined.

(** C9. In every tree returned by either builder, at every depth, a
    [file] node has no [children] and a [folder] node has a [children]
    sequence. *)
Theorem tree_nodes_well_formed :
  (forall entries, exists f,
     EntryTree.buildTree entries = Some f /\ forallb wf_node f = true) /\
  (forall paths, forallb wf_node (buildTreeFromFilePaths paths) = true).
Proof.
  split.
  - intros entries. exists (EntrySpec.buildTree entries).
    split; [apply buildTree_refines | apply spec_buildTree_wf].
  - intros paths. apply toNodes_wf.
Qed.





(** ** Findings projector *)

(** C4, as stated, fails: for the empty folder path the count is 0,
    though every path that starts with ["/"] would have to be counted. *)
Lemma folder_count_empty_path :
  getFolderCount ex_counts "" = 0 /\ count_under ("" +:+ "/") ex_counts = 6.
Proof. by vm_compute. Qed.

(** C4, amended. For a folder path that is not empty and does not end in
    ["/"], the folder count is the sum of the counts of the files whose
    path starts with the folder path followed by ["/"]; a folder path
    that ends in ["/"] is used as the prefix as it is; the empty folder
    path counts 0. With counts [/src/a.py: 2, /src/b.py: 3, /lib/c.py: 1]
    the count is 5 for [/src], 1 for [/lib] and 0 for [/s]. *)
Theorem getFolderCount_sums_files_under_folder :
  (forall (m : gmap string nat) folder,
     folder <> "" -> ends_with "/" folder = false ->
     getFolderCount m folder = count_under (folder +:+ "/") m) /\
  (forall (m : gmap string nat) folder,
     ends_with "/" folder = true -> getFolderCount m folder = count_under folder m) /\
  (forall m : gmap string nat, getFolderCount m "" = 0) /\
  getFolderCount ex_counts "/src" = 5 /\
  getFolderCount ex_counts "/lib" = 1 /\
  getFolderCount ex_counts "/s" = 0.
Proof.
  repeat split; try by vm_compute.
  - intros m folder Hne Hends. unfold getFolderCount.
    destruct folder as [|c folder]; [done|].
    rewrite Hends. apply folder_sum_count_under.
  - intros m folder Hends. unfold getFolderCount.
    destruct folder as [|c folder]; [done|].
    rewrite Hends. apply folder_sum_count_under.
Qed.

Lemma getFolderCount_witness :
  getFolderCount ex_counts "/src" = count_under ("/src" +:+ "/") ex_counts.
Proof.
  apply (proj1 getFolderCount_sums_files_under_folder ex_counts "/src").
  - discriminate.
  - reflexivity.
Defined.

(** C5. The aggregated vulnerabilities and recommendations are the
    arrays of all [detailed_reviews[].crypto_summary] put end to end,
    with later duplicates and empty strings removed;
    ["SQL injection", "Weak hash", "Weak hash"] over two reviews gives
    ["SQL injection", "Weak hash"]. *)
Theorem findings_dedup_first_seen :
  (forall r, findings r =
             mkFindings (aggregated vulnerabilities r) (aggregated recommendations r)) /\
  f_vulnerabilities (findings (Some ex_result)) = ["SQL injection"; "Weak hash"] /\
  f_recommendations (findings (Some ex_result)) = ["SQL injection"; "Weak hash"].
Proof.
  split; [|split; by vm_compute].
  intros r. unfold findings. by rewrite !findings_aggregated.
Qed.

Lemma findingsCountByPath_last files : forall p,
  findingsCountByPath files !! p =
  (fun f => findings_count (analysis f)) <$>
    last (filter (fun f => file_path (analysis f) = p) files).
Proof.
  induction files as [|x files IH] using rev_ind; intros p; [done|].
  rewrite findingsCountByPath_snoc, filter_app.
  destruct (decide (file_path (analysis x) = p)) as [<-|Hne].
  - rewrite lookup_insert_eq, filter_cons_True, filter_nil by done.
    by rewrite last_snoc.
  - rewrite lookup_insert_ne, filter_cons_False, filter_nil, app_nil_r by done.
    apply IH.
Qed.



(** C10. When [detailed_reviews] is present and not empty, the files
    collection has one entry per review, whose analysis is the review's
    [original_analysis] or, without one, the review object itself, and
    [basic_analysis] is not read; [basic_analysis] is used when
    [detailed_reviews] is absent or empty; a null result, or one with
    neither array, gives the empty collection. *)
Theorem getFilesCollection_prefers_detailed_reviews :
  (forall r rev revs,
     detailed_reviews r = Some (rev :: revs) ->
     getFilesCollection (Some r) =
     map (fun rev => mkFile (default (review_fields rev) (original_analysis rev))
                            (Some rev))
         (rev :: revs)) /\
  (forall r,
     detailed_reviews r = None \/ detailed_reviews r = Some [] ->
     getFilesCollection (Some r) =
     map (fun a => mkFile a None) (default [] (basic_analysis r))) /\
  getFilesCollection None = [] /\
  (forall r,
     detailed_reviews r = None -> basic_analysis r = None ->
     getFilesCollection (Some r) = []).
Proof.
  repeat split.
  - intros r rev revs Hd. unfold getFilesCollection. rewrite Hd.
    change (has_length (Some (rev :: revs))) with true. cbv iota.
    simpl default. generalize (rev :: revs). intros l.
    induction l as [|x l IH]; [done|].
    simpl map. rewrite filter_cons_True by done. by rewrite IH.
  - intros r [Hd|Hd]; unfold getFilesCollection; rewrite Hd; simpl;
      by destruct (basic_analysis r) as [[|a l]|].
  - intros r Hd Hb. unfold getFilesCollection. by rewrite Hd, Hb.
Qed.

Lemma getFilesCollection_witness :
  getFilesCollection (Some ex_result) =
  [ mkFile (ex_analysis "/a.py" None)
           (Some (ex_review "/a.py" ["SQL injection"; "Weak hash"]));
    mkFile (ex_analysis "/b.py" None) (Some (ex_review "/b.py" ["Weak hash"])) ].
Proof.
  apply (proj1 getFilesCollection_prefers_detailed_reviews ex_result
           (ex_review "/a.py" ["SQL injection"; "Weak hash"])
           [ex_review "/b.py" ["Weak hash"]]).
  reflexivity.
Defined.

(** ** Ingestion controller *)

Lemma home_settle_progress failed done o ui :
  progress (Home.settle failed done o ui) = progress ui.
Proof.
  destruct o as [m|st text [data|m]]; simpl; [done| |];
    by destruct (response_ok st).
Qed.

Lemma analyzer_settle_progress o ui : progress (Analyzer.settle o ui) = progress ui.
Proof. by destruct o as [m|st text [data|m]]. Qed.

(** On the home page a failed request leaves [analysisResult] as it
    was. *)
Lemma home_failure_keeps_result failed done o ui :
  fetch_failed o -> analysisResult (Home.settle failed done o ui) = analysisResult ui.
Proof.
  destruct o as [m|st text body]; simpl; [done|]. by intros ->.
Qed.

Lemma home_handlers_keep_result now o ui :
  fetch_failed o ->
  analysisResult (Home.requestAnalysis_end now o ui) = analysisResult ui /\
  analysisResult (Home.handleUploadAnalyze_end now o ui) = analysisResult ui /\
  analysisResult (Home.handleAnalyzeStored_end now o ui) = analysisResult ui /\
  analysisResult (Home.analyzeGitRepository_end o ui) = analysisResult ui.
Proof.
  intros Hf. repeat split; simpl; by apply home_failure_keeps_result.
Qed.

(** On the analyzer and editor pages a rejected request does so too. *)
Lemma analyzer_rejection_keeps_result m ui :
  analysisResult (Analyzer.settle (Rejected m) ui) = analysisResult ui.
Proof. done. Qed.

(** C1 does not hold of the analyzer and editor pages: their handlers do
    not test [res.ok], so the JSON payload of an error response replaces
    the result held before. Here a result is held, the analyze request
    is answered with status 500 and an error payload, and the payload
    becomes the result. *)
Theorem analyzer_error_response_replaces_result :
  let o := Responded 500 "(error payload)" (Json ex_error_body) in
  fetch_failed o /\
  analysisResult ex_ui = Some ex_result /\
  analysisResult (Analyzer.onAnalyzeLocal_end 0 o ex_ui) = Some ex_error_body /\
  analysisResult (Analyzer.onAnalyzeGit_end 0 o ex_ui) = Some ex_error_body /\
  analysisResult (Analyzer.onAnalyzeZip_end 0 o ex_ui) = Some ex_error_body /\
  analysisResult (Editor.effect_end 0 (Some o) ex_ui) = Some ex_error_body /\
  Some ex_error_body <> analysisResult ex_ui.
Proof. repeat split; done. Qed.





(** * Further lemmas *)

(** ** Entry-based builder: the forest read back *)

Lemma entries_of_leaf e : entries_of (EntrySpec.leaf e) = [e].
Proof. destruct e as [[] n p l s]; done. Qed.

Lemma flat_entries_attach n d : forall f,
  open_chain d f ->
  flat_map entries_of (EntrySpec.attach d n f) = flat_map entries_of f ++ entries_of n.
Proof.
  induction d as [|d IH]; intros f Hc; simpl.
  - rewrite flat_map_app. simpl. by rewrite app_nil_r.
  - destruct Hc as (f0 & t & -> & Hty & Hc).
    rewrite on_last_snoc, !flat_map_app. simpl. rewrite !app_nil_r.
    rewrite IH by done. rewrite <- app_assoc. f_equal.
    destruct t as [tn tp tty tl ts [cs|]]; done.
Qed.

Lemma spec_flat_entries entries :
  flat_map entries_of (EntrySpec.buildTree entries) = entries.
Proof.
  unfold EntrySpec.buildTree.
  assert (Hgen : forall ps, spec_inv ps ->
    flat_map entries_of (fst (foldl EntrySpec.step ps entries)) =
    flat_map entries_of (fst ps) ++ entries).
  { induction entries as [|e es IH]; intros ps Hinv; simpl.
    - by rewrite app_nil_r.
    - rewrite IH by (by apply spec_step_inv).
      destruct ps as [f open]. destruct Hinv as [_ Hc]. simpl in *.
      rewrite flat_entries_attach.
      + by rewrite entries_of_leaf, <- app_assoc.
      + eapply open_chain_mono; [apply close_length | done]. }
  by rewrite Hgen.
Qed.

(** ** Entry-based builder: levels along a branch *)

Lemma level_chain_prefix a : forall b f, level_chain (a ++ b) f -> level_chain a f.
Proof.
  induction a as [|l a IH]; intros b f H; [done|].
  destruct H as (f0 & t & -> & Hl & H). exists f0, t. eauto.
Qed.

Lemma inc_forest_snoc bound f t :
  inc_forest bound (f ++ [t]) = inc_forest bound f && (above bound t && levels_increase t).
Proof. unfold inc_forest. rewrite forallb_app. simpl. by rewrite andb_true_r. Qed.

Lemma attach_inc n ch : forall bound f,
  levels_increase n = true -> level_chain ch f -> may_follow bound ch n ->
  inc_forest bound f = true ->
  inc_forest bound (EntrySpec.attach (length ch) n f) = true.
Proof.
  induction ch as [|l ch IH]; intros bound f Hn Hc Hfol Hf; simpl.
  - unfold may_follow in Hfol. simpl in Hfol.
    by rewrite inc_forest_snoc, Hf, Hfol, Hn.
  - destruct Hc as (f0 & t & -> & Hl & Hc).
    rewrite on_last_snoc. rewrite inc_forest_snoc in Hf |- *.
    apply andb_true_iff in Hf as [Hf0 Ht]. apply andb_true_iff in Ht as [Hb Ht].
    rewrite Hf0. simpl. apply andb_true_iff. split.
    { by destruct bound, t. }
    change (inc_forest (Some (level t))
              (EntrySpec.attach (length ch) n (default [] (children t))) = true).
    apply IH; [done | done | |].
    + unfold may_follow in *. rewrite Hl.
      destruct ch as [|l' ch]; [by apply Z.ltb_lt|].
      change (last (l :: l' :: ch)) with (last (l' :: ch)) in Hfol.
      destruct (last (l' :: ch)) eqn:E; [done|]. by apply last_None in E.
    + destruct t as [tn tp tty tl ts [cs|]]; done.
Qed.

Lemma attach_level_chain n ch : forall f,
  level_chain ch f ->
  level_chain ch (EntrySpec.attach (length ch) n f) /\
  level_chain (ch ++ [level n]) (EntrySpec.attach (length ch) n f).
Proof.
  induction ch as [|l ch IH]; intros f Hc.
  - split; [done|]. exists f, n. done.
  - destruct Hc as (f0 & t & -> & Hl & Hc).
    destruct (IH _ Hc) as [IH1 IH2].
    cbn [length EntrySpec.attach]. rewrite on_last_snoc. split.
    + eexists f0, _. repeat split; done.
    + eexists f0, _. repeat split; done.
Qed.

Lemma close_suffix lvl open :
  exists popped, open = popped ++ EntrySpec.close lvl open.
Proof.
  induction open as [|l open [popped IH]]; [by exists []|]. simpl.
  destruct (lvl <=? l)%Z; [|by exists []].
  exists (l :: popped). simpl. by f_equal.
Qed.

Lemma close_head lvl open l rest :
  EntrySpec.close lvl open = l :: rest -> (l < lvl)%Z.
Proof.
  induction open as [|l' open IH]; [done|]. simpl.
  destruct (lvl <=? l')%Z eqn:E; [done|]. intros [= -> _].
  by apply Z.leb_gt.
Qed.

Lemma levels_increase_leaf e : levels_increase (EntrySpec.leaf e) = true.
Proof. by destruct e as [[] n p l s]. Qed.

Lemma spec_step_levels ps e : levels_inv ps -> levels_inv (EntrySpec.step ps e).
Proof.
  destruct ps as [f open]. unfold levels_inv, EntrySpec.step. simpl.
  intros [Hinc Hch].
  destruct (close_suffix (e_level e) open) as [popped Hopen].
  pose proof (close_head (e_level e) open) as Hhead.
  set (open' := EntrySpec.close (e_level e) open) in *.
  assert (Hch' : level_chain (rev open') f).
  { rewrite Hopen, rev_app_distr in Hch. by eapply level_chain_prefix. }
  rewrite <- (length_rev open').
  destruct (attach_level_chain (EntrySpec.leaf e) _ _ Hch') as [H1 H2].
  split.
  - apply attach_inc; [apply levels_increase_leaf | done | | done].
    unfold may_follow. destruct open' as [|l rest] eqn:E; [done|].
    simpl. rewrite last_snoc. destruct e; simpl. eapply Hhead. done.
  - destruct (e_type e); [|done]. simpl.
    replace (e_level e) with (level (EntrySpec.leaf e)) by by destruct e.
    done.
Qed.

Lemma spec_levels_increase entries :
  forallb levels_increase (EntrySpec.buildTree entries) = true.
Proof.
  unfold EntrySpec.buildTree.
  assert (H0 : levels_inv ([], [])) by done.
  revert H0. generalize (@nil TreeNode, @nil Z).
  induction entries as [|e es IH]; intros ps H.
  - destruct H as [H _]. exact H.
  - simpl. apply IH. by apply spec_step_levels.
Qed.

(** ** Entry-based builder: files only *)

Lemma spec_files_only entries : forall f,
  Forall (fun e => e_type e = file) entries ->
  foldl EntrySpec.step (f, []) entries = (f ++ map EntrySpec.leaf entries, []).
Proof.
  induction entries as [|e es IH]; intros f Hall; simpl.
  - by rewrite app_nil_r.
  - apply Forall_cons in Hall as [He Hall].
    unfold EntrySpec.step at 2. simpl. rewrite He, IH by done.
    by rewrite <- app_assoc.
Qed.

(** ** The analyzer page's tree for a cloned repository *)

Lemma attach_attach n m d : forall f,
  open_chain d f ->
  EntrySpec.attach (S d) m (EntrySpec.attach d n f) = EntrySpec.attach d (add_child n m) f.
Proof.
  induction d as [|d IH]; intros f Hc.
  - cbn [EntrySpec.attach]. by rewrite on_last_snoc.
  - destruct Hc as (f0 & t & -> & Hty & Hc).
    specialize (IH _ Hc).
    change (EntrySpec.attach (S d) n (f0 ++ [t])) with
      (EntrySpec.on_last (fun t => Node (name t) (path t) (type t) (level t) (supported t)
         (Some (EntrySpec.attach d n (default [] (children t))))) (f0 ++ [t])).
    change (EntrySpec.attach (S d) (add_child n m) (f0 ++ [t])) with
      (EntrySpec.on_last (fun t => Node (name t) (path t) (type t) (level t) (supported t)
         (Some (EntrySpec.attach d (add_child n m) (default [] (children t))))) (f0 ++ [t])).
    rewrite !on_last_snoc.
    change (EntrySpec.attach (S (S d)) m ?g) with
      (EntrySpec.on_last (fun t => Node (name t) (path t) (type t) (level t) (supported t)
         (Some (EntrySpec.attach (S d) m (default [] (children t))))) g).
    rewrite on_last_snoc. cbn [name path type level supported children default from_option id].
    by rewrite IH.
Qed.

Lemma close_keep lvl open :
  match open with [] => True | l :: _ => (l < lvl)%Z end ->
  EntrySpec.close lvl open = open.
Proof.
  destruct open as [|l open]; [done|]. simpl. intros Hl.
  destruct (lvl <=? l)%Z eqn:E; [|done]. apply Z.leb_le in E. lia.
Qed.

Lemma close_all lvl open :
  Forall (fun l => (lvl <= l)%Z) open -> EntrySpec.close lvl open = [].
Proof.
  induction 1 as [|l open Hl _ IH]; [done|]. simpl.
  destruct (lvl <=? l)%Z eqn:E; [done|]. apply Z.leb_gt in E. lia.
Qed.

(** The segments of one path, read from level [i] on, below the node
    that the stack of levels [open] ends in. *)
Lemma path_entries_run rest : forall seg agg i f open,
  match open with [] => True | l :: _ => (l < i)%Z end ->
  Forall (fun l => (0 <= l)%Z) open -> (0 <= i)%Z ->
  open_chain (length open) f ->
  exists open',
    foldl EntrySpec.step (f, open) (path_entries agg i (seg :: rest)) =
      (EntrySpec.attach (length open) (chain agg i seg rest) f, open') /\
    Forall (fun l => (0 <= l)%Z) open'.
Proof.
  induction rest as [|s r IH]; intros seg agg i f open Hhead Hpos Hi Hc.
  - exists open. split; [|done]. simpl. unfold EntrySpec.step. simpl.
    by rewrite close_keep.
  - set (e := mkEntry folder seg (agg +:+ "/" +:+ seg) i (Some true)).
    change (path_entries agg i (seg :: s :: r)) with
      (e :: path_entries (agg +:+ "/" +:+ seg) (i + 1) (s :: r)).
    cbn [foldl].
    assert (Hstep : EntrySpec.step (f, open) e =
                    (EntrySpec.attach (length open) (EntrySpec.leaf e) f, i :: open)).
    { unfold EntrySpec.step. simpl. by rewrite close_keep. }
    rewrite Hstep.
    destruct (IH s (agg +:+ "/" +:+ seg) (i + 1)%Z
                (EntrySpec.attach (length open) (EntrySpec.leaf e) f) (i :: open))
      as [open' [Hrun Hpos']].
    + simpl. lia.
    + by constructor.
    + lia.
    + by apply attach_chain.
    + exists open'. split; [|done]. rewrite Hrun. f_equal.
      cbn [length]. by rewrite attach_attach.
Qed.

Lemma step_after_close ps e :
  EntrySpec.step ps e = EntrySpec.step (fst ps, EntrySpec.close (e_level e) (snd ps)) e.
Proof.
  unfold EntrySpec.step. simpl.
  assert (Hidem : EntrySpec.close (e_level e) (EntrySpec.close (e_level e) (snd ps))
                  = EntrySpec.close (e_level e) (snd ps)).
  { induction (snd ps) as [|l open IH]; [done|]. simpl.
    destruct (e_level e <=? l)%Z eqn:E; [done|]. simpl. by rewrite E. }
  by rewrite Hidem.
Qed.

Lemma one_path_run parts f open :
  Forall (fun l => (0 <= l)%Z) open ->
  exists open',
    foldl EntrySpec.step (f, open) (path_entries "" 0 parts) =
      (f ++ match parts with [] => [] | s :: r => [chain "" 0 s r] end, open') /\
    Forall (fun l => (0 <= l)%Z) open'.
Proof.
  intros Hpos. destruct parts as [|seg rest].
  - exists open. by rewrite app_nil_r.
  - destruct (path_entries_run rest seg "" 0%Z f []) as [open' [Hrun Hpos']];
      [done | done | done | done |].
    exists open'. split; [|done].
    transitivity (foldl EntrySpec.step (f, []) (path_entries "" 0 (seg :: rest)));
      [|exact Hrun].
    cbn [path_entries foldl]. f_equal.
    rewrite (step_after_close (f, open)). simpl. by rewrite close_all.
Qed.

Lemma spec_synthetic_chains paths :
  EntrySpec.buildTree (synthetic_entries paths) = chains paths.
Proof.
  unfold EntrySpec.buildTree, synthetic_entries, chains.
  assert (Hgen : forall f open, Forall (fun l => (0 <= l)%Z) open ->
    exists open',
      foldl EntrySpec.step (f, open)
        (flat_map (fun p => path_entries "" 0 (path_segments p)) paths) =
      (f ++ flat_map (fun p => match path_segments p with
                               | [] => [] | s :: r => [chain "" 0 s r] end) paths,
       open')).
  { induction paths as [|p paths IH]; intros f open Hpos; simpl.
    - exists open. by rewrite app_nil_r.
    - rewrite foldl_app.
      destruct (one_path_run (path_segments p) f open Hpos) as [open1 [-> Hpos1]].
      match goal with |- context [foldl EntrySpec.step (?f1, open1) _] =>
        destruct (IH f1 _ Hpos1) as [open2 ->] end.
      exists open2.
      by rewrite <- app_assoc. }
  destruct (Hgen [] [] (Forall_nil_2 _)) as [open' ->]. done.
Qed.

(** ** Expanded folders *)




(** ** Folder counts along the tree *)

Lemma count_under_insert prefix (m : gmap string nat) p v :
  m !! p = None ->
  count_under prefix (<[p := v]> m) =
  (if String.prefix prefix p then v else 0) + count_under prefix m.
Proof.
  intros Hp. unfold count_under. destruct (String.prefix prefix p) eqn:E.
  - rewrite map_filter_insert_True by (simpl; by rewrite E).
    rewrite map_to_list_insert by (apply map_lookup_filter_None; by left).
    done.
  - rewrite map_filter_insert_not
      by (intros y Hy; simpl in Hy; by rewrite E in Hy).
    done.
Qed.

Lemma count_under_empty prefix : count_under prefix (∅ : gmap string nat) = 0.
Proof. unfold count_under. by rewrite map_filter_empty, map_to_list_empty. Qed.





Lemma getFolderCount_count_under (m : gmap string nat) folder :
  folder <> "" -> ends_with "/" folder = false ->
  getFolderCount m folder = count_under (folder +:+ "/") m.
Proof.
  intros Hne Hends. unfold getFolderCount.
  destruct folder as [|c folder]; [done|].
  rewrite Hends. apply folder_sum_count_under.
Qed.

Lemma count_under_findings prefix files :
  NoDup (map (fun f => file_path (analysis f)) files) ->
  count_under prefix (findingsCountByPath files) =
  sum_list_with (fun f => if String.prefix prefix (file_path (analysis f))
                          then findings_count (analysis f) else 0) files.
Proof.
  induction files as [|x files IH] using rev_ind; intros Hnd.
  - apply count_under_empty.
  - rewrite map_app in Hnd. apply NoDup_app in Hnd as (Hnd & Hdisj & _).
    rewrite findingsCountByPath_snoc, count_under_insert.
    + rewrite IH by done. rewrite sum_list_with_app. simpl. lia.
    + rewrite findingsCountByPath_last.
      destruct (last _) as [f|] eqn:Hlast; [|done]. exfalso.
      apply last_Some in Hlast as [l' Hl'].
      assert (Hin : f ∈ filter (fun f => file_path (analysis f) = file_path (analysis x)) files).
      { rewrite Hl'. apply elem_of_app. right. by left. }
      apply list_elem_of_filter in Hin as [Heq Hin].
      apply (Hdisj (file_path (analysis x))).
      * rewrite <- Heq. apply list_elem_of_fmap. by exists f.
      * simpl. by left.
Qed.

(** ** Chart series *)

Lemma reduce_sum_sum arr : reduce_sum arr = sum_list arr.
Proof.
  unfold reduce_sum.
  assert (H : forall acc, foldl Nat.add acc arr = acc + sum_list arr).
  { induction arr as [|x arr IH]; intros acc; simpl; [lia|]. rewrite IH. lia. }
  by rewrite H.
Qed.

Lemma getChartData_chart_of r :
  getChartData r =
  match getFilesCollection r with
  | [] => None
  | files => Some (chart_of files)
  end.
Proof.
  destruct r as [r|]; [|done]. unfold getChartData.
  set (files := getFilesCollection (Some r)).
  set (step := fun (acc : list string * list nat * list nat * list nat)
                   (entry : FilesCollectionEntry) =>
      let '(names, fs, ims, ps) := acc in
      (names ++ [name_or_unknown (file_name (analysis entry))],
       fs ++ [length_or_0 (crypto_functions (analysis entry))],
       ims ++ [length_or_0 (crypto_imports (analysis entry))],
       ps ++ [length_or_0 (crypto_patterns_found (analysis entry))])).
  assert (Hfold : forall l a b c d,
    foldl step (a, b, c, d) l =
    (a ++ map (fun f => name_or_unknown (file_name (analysis f))) l,
     b ++ map (fun f => length_or_0 (crypto_functions (analysis f))) l,
     c ++ map (fun f => length_or_0 (crypto_imports (analysis f))) l,
     d ++ map (fun f => length_or_0 (crypto_patterns_found (analysis f))) l)).
  { induction l as [|x l IH]; intros a b c d; simpl.
    - by rewrite !app_nil_r.
    - rewrite IH. by rewrite <- !app_assoc. }
  destruct files as [|f files']; [done|].
  rewrite Hfold. simpl app. by rewrite !reduce_sum_sum.
Qed.

(** ** Deduplicated findings *)

Lemma dedup_first_cons x l :
  dedup_first (x :: l) = x :: dedup_first (filter (fun y => y <> x) l).
Proof. by simp dedup_first. Qed.

Lemma dedup_first_elem_len n : forall l, length l <= n ->
  forall x, x ∈ dedup_first l <-> x ∈ l.
Proof.
  induction n as [|n IH]; intros [|y l] Hlen x; simpl in Hlen; try lia;
    [by simp dedup_first..|].
  rewrite dedup_first_cons, !elem_of_cons, IH, list_elem_of_filter.
  - destruct (decide (x = y)) as [->|Hne]; [by split; left|].
    split; [intros [?|[_ ?]]; auto | intros [?|?]; auto].
  - pose proof (length_filter (fun z => z <> y) l). lia.
Qed.

Lemma dedup_first_elem l x : x ∈ dedup_first l <-> x ∈ l.
Proof. by apply (dedup_first_elem_len (length l)). Qed.

Lemma dedup_first_NoDup_len n : forall l, length l <= n -> NoDup (dedup_first l).
Proof.
  induction n as [|n IH]; intros [|y l] Hlen; simpl in Hlen; try lia;
    [simp dedup_first; constructor..|].
  rewrite dedup_first_cons. constructor.
  - rewrite dedup_first_elem, list_elem_of_filter. by intros [H _].
  - apply IH. pose proof (length_filter (fun z => z <> y) l). lia.
Qed.

Lemma dedup_first_NoDup l : NoDup (dedup_first l).
Proof. by apply (dedup_first_NoDup_len (length l)). Qed.

Lemma dedup_first_sublist_len n : forall l, length l <= n -> dedup_first l `sublist_of` l.
Proof.
  induction n as [|n IH]; intros [|y l] Hlen; simpl in Hlen; try lia;
    [by simp dedup_first..|].
  rewrite dedup_first_cons. apply sublist_skip.
  etrans; [apply IH|apply sublist_filter].
  pose proof (length_filter (fun z => z <> y) l). lia.
Qed.

Lemma dedup_first_sublist l : dedup_first l `sublist_of` l.
Proof. by apply (dedup_first_sublist_len (length l)). Qed.

Lemma filter_notin (x : string) (l : list string) : x ∉ l -> filter (fun y => y <> x) l = l.
Proof.
  induction l as [|y l IH]; intros Hn; [done|].
  apply not_elem_of_cons in Hn as [Hne Hn].
  rewrite filter_cons_True by done. by rewrite IH.
Qed.

Lemma dedup_first_id l : NoDup l -> dedup_first l = l.
Proof.
  induction 1 as [|x l Hx Hnd IH]; [by simp dedup_first|].
  by rewrite dedup_first_cons, filter_notin, IH.
Qed.

Lemma uniq_dedup l : uniq l = filter (fun s => s <> "") (dedup_first l).
Proof. unfold uniq. by rewrite array_from_set_dedup. Qed.

(** ** Tabs *)


(** ** The code pane *)

Lemma find_by_path files : forall e,
  NoDup (map (fun f => file_path (analysis f)) files) -> e ∈ files ->
  List.find (fun f => String.eqb (file_path (analysis f)) (file_path (analysis e))) files
  = Some e.
Proof.
  induction files as [|x files IH]; intros e Hnd Hin; [by apply elem_of_nil in Hin|].
  simpl in Hnd. apply NoDup_cons in Hnd as [Hx Hnd]. simpl.
  destruct (String.eqb_spec (file_path (analysis x)) (file_path (analysis e))) as [Heq|Hne].
  - apply elem_of_cons in Hin as [->|Hin]; [done|]. exfalso. apply Hx.
    rewrite Heq. apply list_elem_of_fmap. by exists e.
  - apply elem_of_cons in Hin as [->|Hin]; [done|]. by apply IH.
Qed.

Lemma find_none_by_path files p :
  (forall f, f ∈ files -> file_path (analysis f) <> p) ->
  List.find (fun f => String.eqb (file_path (analysis f)) p) files = None.
Proof.
  induction files as [|x files IH]; intros H; [done|]. simpl.
  destruct (String.eqb_spec (file_path (analysis x)) p) as [Heq|Hne].
  - exfalso. apply (H x); [by left | done].
  - apply IH. intros f Hf. apply H. by right.
Qed.

Lemma find_weaken {A} (P Q : A -> bool) l :
  (forall x, P x = true -> Q x = true) ->
  is_Some (List.find P l) -> is_Some (List.find Q l).
Proof.
  intros Himp. induction l as [|x l IH]; simpl; [done|].
  destruct (P x) eqn:EP.
  - rewrite (Himp _ EP). eauto.
  - destruct (Q x); eauto.
Qed.

Lemma view_of_found a p : view_of a <> NoAnalysis p.
Proof. unfold view_of. by destruct (has_length (code_snippets a)). Qed.

Lemma string_ends_with_spec suffix s :
  string_ends_with suffix s = true <-> exists pre, s = pre +:+ suffix.
Proof.
  induction s as [|c s IH]; simpl.
  - rewrite orb_false_r. split.
    + intros H%String.eqb_eq. exists "". by rewrite H.
    + intros [pre H]. apply String.eqb_eq. destruct pre; [done|].
      rewrite string_app_cons in H. done.
  - rewrite orb_true_iff, IH. split.
    + intros [H%String.eqb_eq|[pre ->]]; [exists ""; by rewrite H|].
      exists (String c pre). by rewrite string_app_cons.
    + intros [[|c' pre] H].
      * left. apply String.eqb_eq. done.
      * rewrite string_app_cons in H. injection H as -> ->. right. by exists pre.
Qed.

(** ** Progress over arbitrary schedules *)

Lemma in_range_step cfg s ev :
  sound_cfg cfg -> random_ok ev -> in_range cfg s -> in_range cfg (exec cfg s ev).
Proof.
  intros [Hc1 Hc2] Hev (H0 & H100 & Hint). unfold in_range.
  destruct ev as [|rnd| |ms|]; simpl.
  - split; [lra|]. split; [lra|]. intros _. lra.
  - destruct (interval (prog s)) eqn:Ei; [|by rewrite ?Ei].
    simpl. rewrite Ei. destruct Hev as [Hr0 Hr1]. specialize (Hint eq_refl).
    pose proof (Q.le_min_l (progressPct (prog s) + (rnd * 6 + 1)) (ceiling cfg)).
    pose proof (Q.le_min_r (progressPct (prog s) + (rnd * 6 + 1)) (ceiling cfg)).
    assert (0 <= Qmin (progressPct (prog s) + (rnd * 6 + 1)) (ceiling cfg))%Q.
    { apply Q.min_glb; lra. }
    split; [done|]. split; [lra|]. intros _. lra.
  - split; [lra|]. split; [lra|]. done.
  - done.
  - destruct (resets (prog s)) as [|due rest] eqn:Er; [by rewrite ?Er|].
    destruct (due <=? clock s); [|by rewrite ?Er].
    simpl. split; [lra|]. split; [lra|]. intros _. lra.
Qed.

Lemma in_range_run cfg evs : forall s,
  sound_cfg cfg -> Forall random_ok evs -> in_range cfg s ->
  in_range cfg (foldl (exec cfg) s evs) /\
  hundreds (prog (foldl (exec cfg) s evs))
  = hundreds (prog s) + length (List.filter is_resolved evs).
Proof.
  induction evs as [|ev evs IH]; intros s Hc Hev Hs.
  - simpl. split; [done|lia].
  - apply Forall_cons in Hev as [Hev Hevs]. simpl foldl.
    destruct (IH (exec cfg s ev) Hc Hevs (in_range_step _ _ _ Hc Hev Hs)) as [Hr Hh].
    split; [done|]. rewrite Hh, hundreds_step by done. simpl.
    destruct (is_resolved ev); simpl; lia.
Qed.

Lemma tick_increases cfg s rnd :
  (0 <= rnd)%Q -> in_range cfg s -> interval (prog s) = true ->
  (progressPct (prog s) <= progressPct (prog (exec cfg s (IntervalFires rnd))))%Q.
Proof.
  intros Hr (H0 & H100 & Hint) Ei. simpl. rewrite Ei. simpl.
  apply Q.min_glb; [lra|]. by apply Hint.
Qed.

(** ** Sizes *)

Lemma scale_none (v : Q) i : (v == v * inject_Z (1024 ^ Z.of_nat (i - i)))%Q.
Proof. rewrite Nat.sub_diag. change (inject_Z (1024 ^ Z.of_nat 0)) with 1%Q. ring. Qed.

Lemma scale_loop_spec fuel : forall value index,
  4 <= fuel + index -> index <= 4 ->
  let '(v, i) := scale_loop fuel value index in
  index <= i <= 4 /\
  (value == v * inject_Z (1024 ^ Z.of_nat (i - index)))%Q /\
  ((v < 1024)%Q \/ i = 4) /\
  ((1 <= value)%Q -> (1 <= v)%Q) /\
  (index < i -> (1 <= v)%Q).
Proof.
  induction fuel as [|fuel IH]; intros value index Hf Hi.
  - simpl. assert (index = 4) as -> by lia.
    split; [lia|]. split; [apply scale_none|]. split; [by right|]. split; [done|lia].
  - cbn [scale_loop].
    change (length units - 1) with 4.
    destruct (Qle_bool 1024 value) eqn:Ev; cbn [andb].
    + apply Qle_bool_iff in Ev.
      destruct (index <? 4) eqn:Ei.
      * apply Nat.ltb_lt in Ei.
        specialize (IH (value / 1024)%Q (index + 1)).
        destruct (scale_loop fuel (value / 1024) (index + 1)) as [v i].
        destruct IH as (Hrange & Heq & Hexit & Hone & Hpos); [lia|lia|].
        cbn beta iota. split; [lia|]. split.
        { replace (i - index) with (S (i - (index + 1))) by lia.
          rewrite Nat2Z.inj_succ, Z.pow_succ_r by lia.
          rewrite inject_Z_mult.
          assert (value == value / 1024 * 1024)%Q as Hv by (field).
          rewrite Hv, Heq. change (inject_Z 1024) with 1024%Q. ring. }
        split; [done|].
        assert (1 <= value / 1024)%Q as H1.
        { apply Qle_shift_div_l; lra. }
        split; [intros _; by apply Hone|]. intros _. by apply Hone.
      * apply Nat.ltb_ge in Ei. assert (index = 4) as -> by lia.
        cbn beta iota. split; [lia|]. split; [apply scale_none|].
        split; [by right|]. split; [done|lia].
    + assert (value < 1024)%Q as Hlt.
      { apply Qnot_le_lt. intros H%Qle_bool_iff. congruence. }
      cbn beta iota. split; [lia|]. split; [apply scale_none|].
      split; [by left|]. split; [done|lia].
Qed.

(** ** Height of the code viewer *)

Lemma split_on_length sep s : forall cur,
  length (split_on sep cur s) = S (count_char sep s).
Proof.
  induction s as [|c s IH]; intros cur; simpl; [done|].
  destruct (Ascii.eqb c sep); simpl; by rewrite IH.
Qed.

(** * Further properties of the code

    ** Entry-based tree builder *)

(** X1. The entry-based builder loses and invents nothing: reading the
    returned forest in pre-order (a node, then its children from first
    to last) gives back the entries, with their names, paths, types,
    levels and [supported] flags, in the order of the input. *)
Theorem buildTree_preorder_round_trip entries :
  exists forest,
    EntryTree.buildTree entries = Some forest /\
    flat_map entries_of forest = entries.
Proof.
  exists (EntrySpec.buildTree entries).
  split; [apply buildTree_refines | apply spec_flat_entries].
Qed.

(** X2. In the forest of the entry-based builder every child lies at a
    strictly greater level than its parent, whatever the levels of the
    input are. *)
Theorem buildTree_children_deeper entries :
  exists forest,
    EntryTree.buildTree entries = Some forest /\
    forallb levels_increase forest = true.
Proof.
  exists (EntrySpec.buildTree entries).
  split; [apply buildTree_refines | apply spec_levels_increase].
Qed.

(** X3. Without a folder among the entries nothing is ever on the stack:
    the forest is the list of the entries as childless roots, in input
    order, whatever their levels. *)
Theorem buildTree_files_only_flat entries :
  Forall (fun e => e_type e = file) entries ->
  EntryTree.buildTree entries =
  Some (map (fun e => Node (e_name e) (e_path e) file (e_level e) (e_supported e) None)
            entries).
Proof.
  intros Hfiles. rewrite buildTree_refines. f_equal.
  unfold EntrySpec.buildTree. rewrite (spec_files_only entries [] Hfiles). simpl.
  apply map_ext_Forall. eapply Forall_impl; [exact Hfiles|].
  intros e He. unfold EntrySpec.leaf. by rewrite He.
Qed.

Lemma buildTree_files_only_flat_witness :
  EntryTree.buildTree [mkEntry file "x" "/a/x" 3 None; mkEntry file "y" "/y" 0 (Some true)] =
  Some [Node "x" "/a/x" file 3 None None; Node "y" "/y" file 0 (Some true) None].
Proof.
  apply (buildTree_files_only_flat
           [mkEntry file "x" "/a/x" 3 None; mkEntry file "y" "/y" 0 (Some true)]).
  repeat constructor.
Defined.

(** X4. The tree that the analyzer page shows for a cloned repository
    has one root per analysed file path with a segment: the path as a
    chain of folders, each with a single child, down to the file.
    Folders that two paths have in common are not merged. *)
Theorem analyzer_git_tree_one_chain_per_path data :
  let paths := map (fun f => file_path (analysis f)) (getFilesCollection (Some data)) in
  EntryTree.buildTree (git_tree_entries data) = Some (chains paths) /\
  length (chains paths) = length (filter (fun p => path_segments p <> []) paths).
Proof.
  intros paths. split.
  - unfold git_tree_entries. fold paths.
    rewrite buildTree_refines. f_equal. apply spec_synthetic_chains.
  - clear. induction paths as [|p paths IH]; [done|].
    unfold chains in *. simpl flat_map. rewrite length_app, IH.
    destruct (path_segments p) eqn:E.
    + by rewrite filter_cons_False by (rewrite E; naive_solver).
    + by rewrite filter_cons_True by (by rewrite E).
Qed.

(** ** Path-based tree builder *)

(** X5. A path that was given before, and a path without a segment
    (such as [""] or ["//"]), do not change the tree of the path-based
    builder. *)
Theorem path_tree_ignores_repeats l1 l2 p :
  p ∈ l1 \/ path_segments p = [] ->
  buildTreeFromFilePaths (l1 ++ p :: l2) = buildTreeFromFilePaths (l1 ++ l2).
Proof. apply buildTreeFromFilePaths_repeat. Qed.

Lemma path_tree_ignores_repeats_witness :
  buildTreeFromFilePaths (["/a/b"; "/c"] ++ "/a/b" :: ["/d"]) =
  buildTreeFromFilePaths (["/a/b"; "/c"] ++ ["/d"]).
Proof.
  apply (path_tree_ignores_repeats ["/a/b"; "/c"] ["/d"] "/a/b").
  left. apply (bool_decide_unpack _). vm_compute. exact I.
Defined.






(** X9. [split("/").filter(Boolean)] gives segments that are not empty
    and hold no ["/"]; joining segments of that kind as the builder
    does ([agg += "/" + segment]) and splitting the result gives the
    segments back, so that the path of a node determines the way to it. *)
Theorem path_segments_join_round_trip :
  (forall p, Forall segment_ok (path_segments p)) /\
  (forall parts, Forall segment_ok parts -> path_segments (join_path parts) = parts) /\
  (forall p, path_segments (join_path (path_segments p)) = path_segments p).
Proof.
  split; [exact path_segments_ok|].
  split; [exact path_segments_join | exact path_segments_idem].
Qed.

(** ** Expanded folders of the tree view *)



(** ** Findings projector *)



(** X13. From the files to the badge of a folder: when the files have
    distinct paths, the count shown for a folder is the sum, over the
    files whose path starts with the folder's path and ["/"], of the
    lengths of their four finding arrays. *)
Theorem getFolderCount_of_files files folderPath :
  NoDup (map (fun f => file_path (analysis f)) files) ->
  folderPath <> "" -> ends_with "/" folderPath = false ->
  getFolderCount (findingsCountByPath files) folderPath =
  sum_list_with
    (fun f => if String.prefix (folderPath +:+ "/") (file_path (analysis f))
              then findings_count (analysis f) else 0)
    files.
Proof.
  intros Hnd H1 H2. rewrite getFolderCount_count_under by done.
  by apply count_under_findings.
Qed.

Lemma getFolderCount_of_files_witness :
  getFolderCount
    (findingsCountByPath
       [mkFile (ex_analysis "/src/a.py" (Some ["hashlib"; "ssl"])) None;
        mkFile (ex_analysis "/lib/c.py" (Some ["hmac"])) None;
        mkFile (ex_analysis "/src/b.py" (Some ["secrets"])) None])
    "/src" = 3.
Proof.
  apply (getFolderCount_of_files
           [mkFile (ex_analysis "/src/a.py" (Some ["hashlib"; "ssl"])) None;
            mkFile (ex_analysis "/lib/c.py" (Some ["hmac"])) None;
            mkFile (ex_analysis "/src/b.py" (Some ["secrets"])) None] "/src").
  - apply (bool_decide_unpack _). vm_compute. exact I.
  - discriminate.
  - reflexivity.
Defined.

(** X14. The chart is absent exactly when the result has no file.
    Otherwise its four series have one value per file, in the order of
    the files: the file name (["Unknown"] for an empty one, so no label
    is empty) and the lengths of the function, import and pattern
    arrays; each total is the sum of its series. *)
Theorem getChartData_series r :
  match getChartData r with
  | None => getFilesCollection r = []
  | Some c =>
      let files := getFilesCollection r in
      files <> [] /\
      fileNames c = map (fun f => name_or_unknown (file_name (analysis f))) files /\
      Forall (fun label => label <> "") (fileNames c) /\
      functionCounts c = map (fun f => length_or_0 (crypto_functions (analysis f))) files /\
      importCounts c = map (fun f => length_or_0 (crypto_imports (analysis f))) files /\
      patternCounts c = map (fun f => length_or_0 (crypto_patterns_found (analysis f))) files /\
      tot_functions (totals c) = sum_list (functionCounts c) /\
      tot_imports (totals c) = sum_list (importCounts c) /\
      tot_patterns (totals c) = sum_list (patternCounts c)
  end.
Proof.
  rewrite getChartData_chart_of.
  destruct (getFilesCollection r) as [|f files] eqn:E; [done|].
  cbn zeta. split; [done|]. split; [done|]. split; [|done].
  unfold chart_of; cbn [fileNames]. apply Forall_fmap, Forall_forall.
  intros x _. simpl. unfold name_or_unknown. by destruct (file_name (analysis x)).
Qed.

(** X15. The deduplication of the findings panel: the result has no
    duplicate and no empty string, holds exactly the non-empty strings
    of its input, keeps them in the order of the input, and is not
    changed by a second pass. For the panel: a vulnerability or a
    recommendation is listed exactly when it is not empty and occurs in
    the summary of one of the detailed reviews. *)
Theorem uniq_properties :
  (forall arr,
     NoDup (uniq arr) /\
     (forall x, x ∈ uniq arr <-> x ∈ arr /\ x <> "") /\
     uniq arr `sublist_of` arr /\
     uniq (uniq arr) = uniq arr) /\
  (forall r x,
     (x ∈ f_vulnerabilities (findings r) <->
      x <> "" /\ exists rev, rev ∈ all_reviews r /\
                             x ∈ default [] (crypto_summary rev ≫= vulnerabilities)) /\
     (x ∈ f_recommendations (findings r) <->
      x <> "" /\ exists rev, rev ∈ all_reviews r /\
                             x ∈ default [] (crypto_summary rev ≫= recommendations))).
Proof.
  assert (Hmem : forall arr x, x ∈ uniq arr <-> x ∈ arr /\ x <> "").
  { intros arr x. rewrite uniq_dedup, list_elem_of_filter, dedup_first_elem. tauto. }
  split.
  - intros arr. split; [|split; [exact (Hmem arr)|split]].
    + rewrite uniq_dedup. apply NoDup_filter, dedup_first_NoDup.
    + rewrite uniq_dedup. etrans; [apply sublist_filter|apply dedup_first_sublist].
    + rewrite (uniq_dedup (uniq arr)), dedup_first_id.
      * rewrite uniq_dedup. by apply list_filter_filter_r.
      * rewrite uniq_dedup. apply NoDup_filter, dedup_first_NoDup.
  - assert (Hfield : forall field r x,
      x ∈ uniq (collect field r) <->
      x <> "" /\ exists rev, rev ∈ all_reviews r /\
                             x ∈ default [] (crypto_summary rev ≫= field)).
    { intros field r x. rewrite Hmem, collect_concat, list_elem_of_In, in_concat.
      split.
      - intros [(l & Hl & Hx) Hne]. split; [done|].
        apply in_map_iff in Hl as (rev & <- & Hrev).
        exists rev. by rewrite !list_elem_of_In.
      - intros [Hne (rev & Hrev & Hx)]. split; [|done].
        exists (default [] (crypto_summary rev ≫= field)).
        rewrite <- !list_elem_of_In. split; [|done].
        apply list_elem_of_fmap. by exists rev. }
    intros r x. split; apply Hfield.
Qed.


(** X17. The code pane. When the files have distinct paths, selecting
    the path of a file shows that file: its snippets if it has any, the
    no-snippets notice otherwise; a path of no file gives the
    no-analysis notice. The editor page is more permissive: it finds an
    entry exactly when the path of some file ends with the selected
    path, hence whenever the other pages find one. *)
Theorem EditorContent_lookup :
  (forall files e,
     NoDup (map (fun f => file_path (analysis f)) files) -> e ∈ files ->
     EditorContent (file_path (analysis e)) files = view_of (analysis e)) /\
  (forall files p,
     EditorContent p files = NoAnalysis p <->
     forall f, f ∈ files -> file_path (analysis f) <> p) /\
  (forall files p,
     EditorContent_editor p files <> NoAnalysis p <->
     exists f pre, f ∈ files /\ file_path (analysis f) = pre +:+ p) /\
  (forall files p,
     EditorContent p files <> NoAnalysis p -> EditorContent_editor p files <> NoAnalysis p).
Proof.
  assert (Hed : forall files p,
    EditorContent_editor p files <> NoAnalysis p <->
    exists f pre, f ∈ files /\ file_path (analysis f) = pre +:+ p).
  { intros files p. unfold EditorContent_editor.
    destruct (List.find _ files) as [f|] eqn:E.
    - split; [intros _|intros _; apply view_of_found].
      apply find_some in E as [Hin Hp]. apply list_elem_of_In in Hin.
      apply orb_true_iff in Hp as [Hp|Hp].
      + apply String.eqb_eq in Hp. exists f, "". by rewrite Hp.
      + apply string_ends_with_spec in Hp as [pre Hp]. by exists f, pre.
    - split; [done|]. intros (f & pre & Hin & Hp). exfalso.
      apply list_elem_of_In in Hin.
      pose proof (find_none _ _ E f Hin) as Hno. simpl in Hno.
      apply orb_false_iff in Hno as [_ Hno].
      assert (string_ends_with p (file_path (analysis f)) = true) as Hyes
        by (apply string_ends_with_spec; by exists pre).
      congruence. }
  assert (Hno : forall files p,
    EditorContent p files = NoAnalysis p <->
    forall f, f ∈ files -> file_path (analysis f) <> p).
  { intros files p. unfold EditorContent.
    destruct (List.find _ files) as [f|] eqn:E.
    - split; [intros H; by apply view_of_found in H|].
      intros H. apply find_some in E as [Hin Hp]. apply list_elem_of_In in Hin.
      apply String.eqb_eq in Hp. by apply H in Hin.
    - split; [intros _|done]. intros f Hin Heq. apply list_elem_of_In in Hin.
      pose proof (find_none _ _ E f Hin) as Hf. simpl in Hf.
      apply String.eqb_neq in Hf. done. }
  split; [|split; [exact Hno|split; [exact Hed|]]].
  - intros files e Hnd Hin. unfold EditorContent. by rewrite find_by_path.
  - intros files p Hfound. apply Hed.
    destruct (decide (Forall (fun f => file_path (analysis f) <> p) files)) as [Hall|Hex].
    + exfalso. apply Hfound, Hno. by apply Forall_forall.
    + apply not_Forall_Exists in Hex; [|intros f; apply _].
      apply Exists_exists in Hex as (f & Hin & Hp).
      exists f, "". split; [done|]. simpl.
      by destruct (decide (file_path (analysis f) = p)) as [->|?]; [|exfalso; apply Hp].
Qed.

(** ** Ingestion controller *)

(** X18. On the home page every outcome of a request ends with a
    notice, and the notice tells what happened to the result: a
    response with a status in 200..299 and a JSON body replaces the
    result by its payload and gives a success notice; every other
    outcome keeps the result and gives an error notice. *)
Theorem home_outcome_notice now o ui :
  Forall (fun handler : Fetch -> Ui -> Ui =>
            match fetch_payload o with
            | Some data =>
                analysisResult (handler o ui) = Some data /\
                exists text, feedback (handler o ui) = Some (fb_success, text)
            | None =>
                analysisResult (handler o ui) = analysisResult ui /\
                exists text, feedback (handler o ui) = Some (fb_error, text)
            end)
         (home_handlers now).
Proof.
  assert (Hsettle : forall failed done,
    match fetch_payload o with
    | Some data =>
        analysisResult (Home.settle failed done o ui) = Some data /\
        exists text, feedback (Home.settle failed done o ui) = Some (fb_success, text)
    | None =>
        analysisResult (Home.settle failed done o ui) = analysisResult ui /\
        exists text, feedback (Home.settle failed done o ui) = Some (fb_error, text)
    end).
  { intros failed done. destruct o as [msg|status text [data|msg]]; simpl.
    - eauto.
    - destruct (response_ok status); simpl; eauto.
    - destruct (response_ok status); simpl; eauto. }
  unfold home_handlers.
  repeat (apply Forall_cons; split); [..|apply Forall_nil_2];
    unfold Home.requestAnalysis_end, Home.handleUploadAnalyze_end,
           Home.handleAnalyzeStored_end, Home.analyzeGitRepository_end, on_progress;
    cbn [analysisResult feedback]; apply Hsettle.
Qed.

(** X19. Whatever the outcome of the request, the end of a handler is
    the resolution step of the progress indicator with the timing of
    its page: the interval is cleared, 100 is shown, and the reset is
    scheduled one display window later. *)
Theorem handlers_always_finish_progress now o ui :
  Forall (fun h : ProgressCfg * (Fetch -> Ui -> Ui) =>
            let p := progress (h.2 o ui) in
            p = prog (exec h.1 (mkLoop now (progress ui)) Resolved) /\
            interval p = false /\
            progressPct p = 100%Q /\
            last (resets p) = Some (now + window_ms h.1))
         (progress_handlers now).
Proof.
  assert (Hstop : forall cfg ui',
    progress ui' = progress ui ->
    let p := progress (on_progress (stopProgress cfg now) ui') in
    p = prog (exec cfg (mkLoop now (progress ui)) Resolved) /\
    interval p = false /\ progressPct p = 100%Q /\
    last (resets p) = Some (now + window_ms cfg)).
  { intros cfg ui' Hp. simpl. rewrite Hp. split; [done|]. split; [done|].
    split; [done|]. by rewrite last_snoc. }
  unfold progress_handlers.
  repeat (apply Forall_cons; split); [..|apply Forall_nil_2]; cbn [fst snd];
    first [ apply Hstop, home_settle_progress | apply Hstop, analyzer_settle_progress ].
Qed.

(** ** Progress indicator *)

(** X20. Under every schedule of starts, interval callbacks,
    resolutions, waits and reset timeouts, from a state in range: the
    value stays between 0 and 100; while the interval runs it is at
    most the ceiling of the page, and an interval callback never
    lowers it; and 100 has been written once per resolution, never by
    the interval. *)
Theorem progress_any_schedule cfg evs s0 :
  sound_cfg cfg -> Forall random_ok evs -> in_range cfg s0 ->
  let s := foldl (exec cfg) s0 evs in
  in_range cfg s /\
  hundreds (prog s) = hundreds (prog s0) + length (List.filter is_resolved evs) /\
  (forall random, (0 <= random)%Q -> interval (prog s) = true ->
     (progressPct (prog s) <= progressPct (prog (exec cfg s (IntervalFires random))))%Q).
Proof.
  intros Hc Hev Hs0 s.
  destruct (in_range_run cfg evs s0 Hc Hev Hs0) as [Hr Hh].
  split; [exact Hr|]. split; [exact Hh|].
  intros random Hrnd Hint. by apply tick_increases.
Qed.

Lemma progress_any_schedule_witness :
  let s := foldl (exec editor_cfg) editor_idle
             [Start; IntervalFires (1 # 2); Start; Resolved; IntervalFires 0;
              Resolved; Wait 1200; ResetFires; Start] in
  in_range editor_cfg s /\
  hundreds (prog s) = 0 + 2 /\
  (forall random, (0 <= random)%Q -> interval (prog s) = true ->
     (progressPct (prog s) <= progressPct (prog (exec editor_cfg s (IntervalFires random))))%Q).
Proof.
  apply (progress_any_schedule editor_cfg
           [Start; IntervalFires (1 # 2); Start; Resolved; IntervalFires 0;
            Resolved; Wait 1200; ResetFires; Start] editor_idle).
  - split; vm_compute; [discriminate | reflexivity].
  - repeat constructor; vm_compute; discriminate.
  - split; [|split]; vm_compute; [discriminate | discriminate | discriminate].
Defined.

(** ** Sizes and heights *)

(** X21. The value and the unit that [formatBytes] prints for a
    positive size: the size is the value times 1024 to the rank of the
    unit; the value is below 1024 unless the unit is the largest one
    (TB); the value is at least 1 for a size of at least one byte.
    Sizes that are not positive give 0 B. *)
Theorem formatBytes_scaling bytes :
  (0 < bytes)%Q ->
  exists value index,
    formatBytes bytes = (value, nth index units "") /\
    index <= 4 /\
    (bytes == value * inject_Z (1024 ^ Z.of_nat index))%Q /\
    ((value < 1024)%Q \/ index = 4) /\
    ((1 <= bytes)%Q -> (1 <= value)%Q).
Proof.
  intros Hpos. unfold formatBytes.
  destruct (Qle_bool bytes 0) eqn:E; [apply Qle_bool_iff in E; lra|].
  pose proof (scale_loop_spec (length units) bytes 0) as H.
  destruct (scale_loop (length units) bytes 0) as [v i].
  destruct H as (Hi & Heq & Hexit & Hone & _); [simpl; lia|lia|].
  exists v, i. rewrite Nat.sub_0_r in Heq.
  split; [done|]. split; [lia|]. done.
Qed.

Lemma formatBytes_scaling_witness :
  exists value index,
    formatBytes 1536 = (value, nth index units "") /\
    index <= 4 /\
    (1536 == value * inject_Z (1024 ^ Z.of_nat index))%Q /\
    ((value < 1024)%Q \/ index = 4) /\
    ((1 <= 1536)%Q -> (1 <= value)%Q).
Proof. apply (formatBytes_scaling 1536). reflexivity. Defined.

(** X22. The code viewer counts one line more than the text has line
    feeds, and its height is 18 pixels per line plus 32, kept between
    the minimum and the maximum: with the default bounds, 140 pixels up
    to 6 lines and 480 pixels from 25 lines on. A minimum above the
    maximum wins. *)
Theorem viewer_height_clamped value :
  line_count value = S (count_char "010" value) /\
  (forall lo hi, (lo <= hi)%Z -> (lo <= viewer_height lo hi value <= hi)%Z) /\
  (forall lo hi, (hi < lo)%Z -> viewer_height lo hi value = lo) /\
  (line_count value <= 6 -> viewer_height 140 480 value = 140%Z) /\
  (6 <= line_count value <= 24 ->
   viewer_height 140 480 value = (Z.of_nat (line_count value) * 18 + 32)%Z) /\
  (25 <= line_count value -> viewer_height 140 480 value = 480%Z).
Proof.
  split; [apply split_on_length|].
  unfold viewer_height. cbn zeta.
  repeat split; intros; lia.
Qed.

(** ** Badges of the tree view *)














Section PathTreeBadges.
Variable files : list FilesCollectionEntry.
Hypothesis paths_distinct : NoDup (map (fun f => file_path (analysis f)) files).
Hypothesis paths_normal : Forall normal_path (map (fun f => file_path (analysis f)) files).
Hypothesis paths_free : prefix_free (map (fun f => file_path (analysis f)) files).





End PathTreeBadges.


